(** * A shallow embedding of the [gpt] package (GUID partition table reader)

    The development follows the two source files of the package:
    [guid.go] (the [GUID] record, its canonical string and the table of
    well-known partition types) and [gpt.go] (the header, its verification,
    the block-by-block reader of the partition entry array and the
    accessors of a partition entry).

    Conventions.  A Go [uintN] is a [Z]; every operation that can leave the
    range of its type is written with its wrap-around ([wrap]).  A Go [byte]
    of a buffer is a [Byte.byte].  Fixed-size arrays are lists; their length
    is a side condition where a statement needs it. *)

From Stdlib Require Import ZArith List String Ascii Bool Lia.
From Stdlib.Strings Require Import Byte.
Import ListNotations.

Local Open Scope Z_scope.

(** ** Machine integers *)

Definition wrap (bits : Z) (z : Z) : Z := z mod 2 ^ bits.

Definition uint8 (z : Z) : Z := wrap 8 z.
Definition uint16 (z : Z) : Z := wrap 16 z.
Definition uint32 (z : Z) : Z := wrap 32 z.
Definition uint64 (z : Z) : Z := wrap 64 z.

(** Conversion of a 64-bit pattern to Go's [int64] (two's complement). *)
Definition int64 (z : Z) : Z :=
  let u := uint64 z in if u <? 2 ^ 63 then u else u - 2 ^ 64.

Definition in_range (bits : Z) (z : Z) : Prop := 0 <= z < 2 ^ bits.

Definition byte_to_Z (b : byte) : Z := Z.of_N (Byte.to_N b).

Definition byte_of_Z (z : Z) : byte :=
  match Byte.of_N (Z.to_N (z mod 256)) with
  | Some b => b
  | None => x00
  end.

(** ** [encoding/binary], little-endian order

    [binary.Read] fills a struct field by field, in declaration order, each
    integer field from its little-endian bytes and each byte array as it
    is.  The two functions below are the integer part of that layout. *)
Module binary.

Fixpoint le_combine (bs : list byte) : Z :=
  match bs with
  | [] => 0
  | b :: rest => byte_to_Z b + 256 * le_combine rest
  end.

Fixpoint le_split (n : nat) (z : Z) : list byte :=
  match n with
  | O => []
  | S k => byte_of_Z z :: le_split k (z / 256)
  end.

Definition Uint8 (bs : list byte) : Z := le_combine (firstn 1 bs).
Definition Uint16 (bs : list byte) : Z := le_combine (firstn 2 bs).
Definition Uint32 (bs : list byte) : Z := le_combine (firstn 4 bs).
Definition Uint64 (bs : list byte) : Z := le_combine (firstn 8 bs).

Definition PutUint8 (z : Z) : list byte := le_split 1 z.
Definition PutUint16 (z : Z) : list byte := le_split 2 z.
Definition PutUint32 (z : Z) : list byte := le_split 4 z.
Definition PutUint64 (z : Z) : list byte := le_split 8 z.

(** [n] consecutive 16-bit units, as for a [[n]uint16] field. *)
Fixpoint Uint16s (n : nat) (bs : list byte) : list Z :=
  match n with
  | O => []
  | S k => Uint16 bs :: Uint16s k (skipn 2 bs)
  end.

End binary.

(** ** [fmt]: the verbs used by [GUID.String]

    [%0.NX] on an unsigned integer prints its upper-case hexadecimal digits
    with at least [N] of them (the precision), padding with zeros on the
    left.  On a byte array, [%0.NX] prints two upper-case digits per byte
    for at most [N] bytes; the zero flag has no effect without a width. *)
Module fmt.

Definition udigit (d : Z) : ascii :=
  match d with
  | 0 => "0" | 1 => "1" | 2 => "2" | 3 => "3"
  | 4 => "4" | 5 => "5" | 6 => "6" | 7 => "7"
  | 8 => "8" | 9 => "9" | 10 => "A" | 11 => "B"
  | 12 => "C" | 13 => "D" | 14 => "E" | _ => "F"
  end%char.

(** The digits of [z], most significant first, in front of [acc].  A
    64-bit value has at most sixteen of them. *)
Fixpoint hex_digits (fuel : nat) (z : Z) (acc : string) : string :=
  match fuel with
  | O => acc
  | S k =>
      let acc' := String (udigit (z mod 16)) acc in
      if z <? 16 then acc' else hex_digits k (z / 16) acc'
  end.

Fixpoint zeros (n : nat) : string :=
  match n with
  | O => EmptyString
  | S k => String "0"%char (zeros k)
  end.

Definition fmtX (prec : nat) (z : Z) : string :=
  let ds := hex_digits 16 z EmptyString in
  (zeros (prec - String.length ds) ++ ds)%string.

Definition byteX (b : byte) : string :=
  let v := byte_to_Z b in
  String (udigit (v / 16)) (String (udigit (v mod 16)) EmptyString).

Fixpoint bytesX (bs : list byte) : string :=
  match bs with
  | [] => EmptyString
  | b :: rest => (byteX b ++ bytesX rest)%string
  end.

Definition fmtSbx (prec : nat) (bs : list byte) : string :=
  bytesX (firstn prec bs).

End fmt.

(** ** guid.go *)

(** Represents a RFC 4122 GUID. *)
Record GUID : Type := mkGUID {
  TimeLow : Z;              (* uint32 *)
  TimeMid : Z;              (* uint16 *)
  TimeHighAndVersion : Z;   (* uint16 *)
  ClockSeqAndReserved : Z;  (* uint8 *)
  ClockSeqLow : Z;          (* uint8 *)
  Node : list byte          (* [6]byte *)
}.

Definition GUID_wf (g : GUID) : Prop :=
  in_range 32 (TimeLow g) /\ in_range 16 (TimeMid g) /\
  in_range 16 (TimeHighAndVersion g) /\ in_range 8 (ClockSeqAndReserved g) /\
  in_range 8 (ClockSeqLow g) /\ List.length (Node g) = 6%nat.

(** The array literal of the source lists five zeros; the sixth element of
    a [[6]byte] is zero by default. *)
Definition ZeroGUID : GUID := mkGUID 0 0 0 0 0 [x00; x00; x00; x00; x00; x00].

(** Converts a GUID to a standard string representation:
    [Sprintf("%0.8X-%0.4X-%0.4X-%0.2X%0.2X-%0.16X", ...)]. *)
Definition GUID_String (g : GUID) : string :=
  (fmt.fmtX 8 (TimeLow g) ++ "-" ++
   fmt.fmtX 4 (TimeMid g) ++ "-" ++
   fmt.fmtX 4 (TimeHighAndVersion g) ++ "-" ++
   fmt.fmtX 2 (ClockSeqAndReserved g) ++ fmt.fmtX 2 (ClockSeqLow g) ++ "-" ++
   fmt.fmtSbx 16 (Node g))%string.

(** Converts a partition type GUID to a human readable string.  The
    [switch] compares the canonical string with each case label in turn;
    the labels are those of the source, character for character. *)
Definition GUID_HumanString (g : GUID) : string :=
  let guid := GUID_String g in
  if String.eqb guid "00000000-0000-0000-0000-0000000000000" then "Unused"
  else if String.eqb guid "C12A7328-F81F-11D2-BA4B-00A0C93EC93B" then "EFI System Partition"
  else if String.eqb guid "0657FD6D-A4AB-43C4-84E5-0933C84B4F4F" then "Linux Swap"
  else if String.eqb guid "9D94CE7C-1CA5-11DC-8817-01301BB8A9F5" then "DragonFly UFS1"
  else if String.eqb guid "C91818F9-8025-47AF-89D2-F030D7000C2C" then "Plan 9"
  else if String.eqb guid "824CC7A0-36A8-11E3-890A-952519AD3F61" then "OpenBSD"
  else if String.eqb guid "0FC63DAF-8483-4772-8E79-3D69D8477DE4" then "Linux"
  else guid.

(** The layout [binary.Read] gives to the [GUID] struct: sixteen bytes,
    the three time fields little-endian, then the two clock bytes and the
    six node bytes as they come. *)
Definition decodeGUID (bs : list byte) : GUID :=
  {| TimeLow := binary.Uint32 bs;
     TimeMid := binary.Uint16 (skipn 4 bs);
     TimeHighAndVersion := binary.Uint16 (skipn 6 bs);
     ClockSeqAndReserved := binary.Uint8 (skipn 8 bs);
     ClockSeqLow := binary.Uint8 (skipn 9 bs);
     Node := firstn 6 (skipn 10 bs) |}.

(** Modelled from the spec: the package only reads; the re-encoding of a
    GUID is absent from the source.  It is the same field layout written
    back ([binary.Write] on the same struct). *)
Definition encodeGUID (g : GUID) : list byte :=
  (binary.PutUint32 (TimeLow g) ++
   binary.PutUint16 (TimeMid g) ++
   binary.PutUint16 (TimeHighAndVersion g) ++
   binary.PutUint8 (ClockSeqAndReserved g) ++
   binary.PutUint8 (ClockSeqLow g) ++
   Node g)%list.

(** ** [unicode/utf16] and the conversion of runes to a Go string *)
Module utf16.

Definition surr1 : Z := 0xd800.
Definition surr2 : Z := 0xdc00.
Definition surr3 : Z := 0xe000.
Definition replacementChar : Z := 0xFFFD.

Definition DecodeRune (r1 r2 : Z) : Z :=
  Z.lor (Z.shiftl (r1 - surr1) 10) (r2 - surr2) + 0x10000.

(** [Decode]: a unit outside the surrogate range is a rune; a high
    surrogate followed by a low one is one rune; any other surrogate is
    replaced by U+FFFD. *)
Fixpoint Decode (s : list Z) : list Z :=
  match s with
  | [] => []
  | r :: rest =>
      if (r <? surr1) || (surr3 <=? r) then r :: Decode rest
      else
        match rest with
        | r2 :: rest' =>
            if (r <? surr2) && (surr2 <=? r2) && (r2 <? surr3)
            then DecodeRune r r2 :: Decode rest'
            else replacementChar :: Decode rest
        | [] => [replacementChar]
        end
  end.

End utf16.

Module utf8.

Definition chr (z : Z) : ascii := ascii_of_N (Z.to_N (z mod 256)).

(** The UTF-8 bytes of one rune, as [string(runes)] writes them. *)
Definition EncodeRune (r : Z) : string :=
  if (r <? 0) || (0x10FFFF <? r) || ((0xD800 <=? r) && (r <=? 0xDFFF)) then
    String (chr 0xEF) (String (chr 0xBF) (String (chr 0xBD) EmptyString))
  else if r <? 0x80 then String (chr r) EmptyString
  else if r <? 0x800 then
    String (chr (Z.lor 0xC0 (Z.shiftr r 6)))
      (String (chr (Z.lor 0x80 (Z.land r 0x3F))) EmptyString)
  else if r <? 0x10000 then
    String (chr (Z.lor 0xE0 (Z.shiftr r 12)))
      (String (chr (Z.lor 0x80 (Z.land (Z.shiftr r 6) 0x3F)))
         (String (chr (Z.lor 0x80 (Z.land r 0x3F))) EmptyString))
  else
    String (chr (Z.lor 0xF0 (Z.shiftr r 18)))
      (String (chr (Z.lor 0x80 (Z.land (Z.shiftr r 12) 0x3F)))
         (String (chr (Z.lor 0x80 (Z.land (Z.shiftr r 6) 0x3F)))
            (String (chr (Z.lor 0x80 (Z.land r 0x3F))) EmptyString))).

Fixpoint string_of_runes (rs : list Z) : string :=
  match rs with
  | [] => EmptyString
  | r :: rest => (EncodeRune r ++ string_of_runes rest)%string
  end.

End utf8.

(** ** gpt.go: the header *)

(** Size of a block on the hard drive. *)
Definition LogicalBlockSize : Z := 512.

(** A single block on the hard drive: a zero-initialised [[512]byte] into
    which the bytes of a read are copied. *)
Definition LogicalBlock (read : list byte) : list byte :=
  firstn (Z.to_nat LogicalBlockSize) (read ++ repeat x00 (Z.to_nat LogicalBlockSize)).

Record GPTHeader : Type := mkGPTHeader {
  Signature : list byte;            (* [8]byte, must be "EFI PART" *)
  Revision : Z;                     (* uint32 *)
  HeaderSize : Z;                   (* uint32 *)
  HeaderCRC32 : Z;                  (* uint32 *)
  Reserved : Z;                     (* uint32, must be zero *)
  MyLBA : Z;                        (* uint64 *)
  AltLBA : Z;                       (* uint64 *)
  FirstUseableLBA : Z;              (* uint64 *)
  LastUseableLBA : Z;               (* uint64 *)
  Disk : GUID;
  PartitionEntryLBA : Z;            (* uint64 *)
  MaxNumberPartitionEntries : Z;    (* uint32 *)
  SizeOfPartitionEntry : Z;         (* uint32 *)
  PartitionEntryArrayCRC32 : Z;     (* uint32 *)
  Padding : list byte               (* [LogicalBlockSize - 92]byte *)
}.

(** Errors that come from [io] and from the device. *)
Inductive io_error : Type :=
| EOF
| ErrUnexpectedEOF
| ErrDevice (msg : string).

(** The error values of the package.  Each constructor stands for one
    [fmt.Errorf] of the source (its message is given by [Error] below) or
    for an error handed up unchanged from a reader. *)
Inductive error : Type :=
| BadSignature (sig : list byte)
| ReservedFieldNonZero
| PaddingCorrupted
| UnsupportedLayout
| SeekMismatch
| MisalignedEntrySize
| ShortEntryPadding
| EntryPaddingCorrupted
| IOError (e : io_error).

Definition dquote : string := String (ascii_of_nat 34) EmptyString.

Definition Error (e : error) : string :=
  match e with
  | BadSignature sig =>
      ("Invalid GPT Header " ++ dquote ++ string_of_list_byte sig ++ dquote)%string
  | ReservedFieldNonZero => "Invalid GPT Header. Reserved area not zero."
  | PaddingCorrupted => "Invalid GPT Header. Header not zero padded."
  | UnsupportedLayout =>
      "TODO: Handle GPT Header or GPT Partition in non-standard location"
  | SeekMismatch => "Could not find PartitionEntry table."
  | MisalignedEntrySize => "Partitions must fit entirely in a single block."
  | ShortEntryPadding =>
      "Could not read appropriate number of zeros to pad partition entry"
  | EntryPaddingCorrupted => "Invalid partition entry padding"
  | IOError EOF => "EOF"
  | IOError ErrUnexpectedEOF => "unexpected EOF"
  | IOError (ErrDevice msg) => msg
  end.

Fixpoint bytes_eqb (a b : list byte) : bool :=
  match a, b with
  | [], [] => true
  | x :: a', y :: b' => Byte.eqb x y && bytes_eqb a' b'
  | _, _ => false
  end.

Definition EFI_PART : list byte := list_byte_of_string "EFI PART".

(** [for _, b := range bs { if b != 0 { return err } }]: the first
    non-zero byte ends the loop with the error. *)
Fixpoint range_nonzero (err : error) (bs : list byte) : option error :=
  match bs with
  | [] => None
  | b :: rest =>
      if negb (Byte.eqb b x00) then Some err else range_nonzero err rest
  end.

(** Verifies the secondary GPT header; not implemented in the source, it
    returns [nil]. *)
Definition verifyAlt (g : GPTHeader) : option error := None.

(** Verifies that the GPT header loaded from disk is valid; [None] is Go's
    [nil] error. *)
Definition Verify (g : GPTHeader) : option error :=
  if negb (bytes_eqb (Signature g) EFI_PART) then Some (BadSignature (Signature g))
  else if negb (Reserved g =? 0) then Some ReservedFieldNonZero
  else
    match range_nonzero PaddingCorrupted (Padding g) with
    | Some e => Some e
    | None =>
        if negb (MyLBA g =? 1) || negb (PartitionEntryLBA g =? 2)
        then Some UnsupportedLayout
        else verifyAlt g
    end.

(** ** gpt.go: partition entries *)

(** Represents a single GPT partition (the 128 bytes of fixed fields). *)
Record GPTPartitionEntry : Type := mkGPTPartitionEntry {
  PartitionType : GUID;
  UniqueParitition : GUID;
  StartingLBA : Z;            (* uint64 *)
  EndingLBA : Z;              (* uint64 *)
  Attributes : Z;             (* GPTPartitionAttribute, a uint64 *)
  PartitionName : list Z      (* [36]uint16 *)
}.

Definition GPTPartitionEntry_wf (e : GPTPartitionEntry) : Prop :=
  in_range 64 (StartingLBA e) /\ in_range 64 (EndingLBA e).

(** The little-endian layout [binary.Read] gives to the struct. *)
Definition decodeEntry (bs : list byte) : GPTPartitionEntry :=
  {| PartitionType := decodeGUID bs;
     UniqueParitition := decodeGUID (skipn 16 bs);
     StartingLBA := binary.Uint64 (skipn 32 bs);
     EndingLBA := binary.Uint64 (skipn 40 bs);
     Attributes := binary.Uint64 (skipn 48 bs);
     PartitionName := binary.Uint16s 36 (skipn 56 bs) |}.

(** Returns the size of a GPT partition in number of logical blocks. *)
Definition Size (e : GPTPartitionEntry) : Z :=
  uint64 (EndingLBA e - StartingLBA e).

(** The loop of [GetName] from index [i], with [n] iterations left before
    [i] reaches [len(e.PartitionName)]. *)
Fixpoint GetName_loop (name : list Z) (n : nat) (i : nat) : string :=
  match n with
  | O => utf8.string_of_runes (utf16.Decode name)
  | S n' =>
      let c := nth i name 0 in
      if c =? 0 then
        if Nat.eqb i 0 then EmptyString
        else utf8.string_of_runes (utf16.Decode (firstn i name))
      else GetName_loop name n' (S i)
  end.

(** Returns the name of the GPT partition. *)
Definition GetName (e : GPTPartitionEntry) : string :=
  GetName_loop (PartitionName e) (List.length (PartitionName e)) 0.

(** The name field as the specification words it: the code units up to and
    excluding the first zero unit. *)
Fixpoint units_before_zero (name : list Z) : list Z :=
  match name with
  | [] => []
  | c :: rest => if c =? 0 then [] else c :: units_before_zero rest
  end.

(** ** Readers *)

(** [bytes.Reader] over a byte slice: the state is what is left to read. *)
Module bytes.

Definition Reader : Type := list byte.

Definition NewReader (b : list byte) : Reader := b.

(** [io.ReadFull(r, buf)] with [len(buf) = n]: all [n] bytes, or [EOF]
    when nothing is left, or [ErrUnexpectedEOF] when fewer are. *)
Definition ReadFull (r : Reader) (n : Z) : (list byte + io_error) * Reader :=
  if n <=? 0 then (inl [], r)
  else if Z.of_nat (List.length r) =? 0 then (inr EOF, r)
  else if Z.of_nat (List.length r) <? n then (inr ErrUnexpectedEOF, [])
  else (inl (firstn (Z.to_nat n) r), skipn (Z.to_nat n) r).

End bytes.

(** The [io.ReadSeeker] handed to [GetPartitions].  [Seek] is the method
    of the interface; [ReadFull r n] is [io.ReadFull] on the reader with a
    buffer of [n] bytes.  Both return the reader's next state. *)
Class ReadSeeker (R : Type) : Type := {
  Seek : R -> Z -> Z -> (Z + io_error) * R;
  ReadFull : R -> Z -> (list byte + io_error) * R
}.

(** What the device was asked, in order. *)
Inductive IOEvent : Type :=
| EvSeek (offset whence : Z)
| EvReadFull (n : Z).

Inductive panic : Type :=
| DivideByZero.

(** How a call ends: with a value, with an error value, with a run-time
    panic, or not within the given number of loop iterations. *)
Inductive outcome (A : Type) : Type :=
| Done (a : A)
| Failed (e : error)
| Panicked (p : panic)
| OutOfFuel.

Arguments Done {A} a.
Arguments Failed {A} e.
Arguments Panicked {A} p.
Arguments OutOfFuel {A}.

(** [binary.Read(partReader, binary.LittleEndian, &p)] for an entry: 128
    bytes through [io.ReadFull], then the field layout. *)
Definition binary_Read_entry (partReader : bytes.Reader)
  : (GPTPartitionEntry + io_error) * bytes.Reader :=
  match bytes.ReadFull partReader 128 with
  | (inl bs, r') => (inl (decodeEntry bs), r')
  | (inr e, r') => (inr e, r')
  end.

(** The body of the inner loop of [GetPartitions] up to the [append]: one
    entry and its padding. *)
Definition read_entry (g : GPTHeader) (partReader : bytes.Reader)
  : (GPTPartitionEntry + error) * bytes.Reader :=
  match binary_Read_entry partReader with
  | (inr e, r1) => (inr (IOError e), r1)
  | (inl p, r1) =>
      let paddingSize := uint32 (SizeOfPartitionEntry g - 128) in
      if 0 <? paddingSize then
        match bytes.ReadFull r1 paddingSize with
        | (inr e, r2) => (inr (IOError e), r2)
        | (inl padding, r2) =>
            if negb (uint32 (Z.of_nat (List.length padding)) =? paddingSize)
            then (inr ShortEntryPadding, r2)
            else
              match range_nonzero EntryPaddingCorrupted padding with
              | Some e => (inr e, r2)
              | None => (inl p, r2)
              end
        end
      else (inl p, r1)
  end.

(** [for i := uint32(0); i < partitionsPerBlock; i++ { ... }] with [n]
    iterations left; [partitionsLeft--] wraps as a [uint32] does. *)
Fixpoint entries_loop (n : nat) (g : GPTHeader) (partReader : bytes.Reader)
    (partitions : list GPTPartitionEntry) (partitionsLeft : Z)
  : error + (list GPTPartitionEntry * Z) :=
  match n with
  | O => inr (partitions, partitionsLeft)
  | S n' =>
      match read_entry g partReader with
      | (inr e, _) => inl e
      | (inl p, r') =>
          entries_loop n' g r' (partitions ++ [p])%list (uint32 (partitionsLeft - 1))
      end
  end.

(** ** gpt.go: reading the partition entry array *)

(** The argument of the seek: the byte offset of the entry array, as the
    [int64] the interface takes. *)
Definition seek_offset (g : GPTHeader) : Z :=
  int64 (uint64 (LogicalBlockSize * PartitionEntryLBA g)).

Section WithReader.

Context {R : Type} {RS : ReadSeeker R}.

(** The state threaded through [GetPartitions]: the reader and the log
    of what it was asked so far (latest request last). *)
Definition World : Type := (R * list IOEvent)%type.

Definition M (A : Type) : Type := World -> outcome A * World.

Definition ret {A : Type} (a : A) : M A := fun w => (Done a, w).

Definition bind {A B : Type} (m : M A) (k : A -> M B) : M B :=
  fun w =>
    match m w with
    | (Done a, w') => k a w'
    | (Failed e, w') => (Failed e, w')
    | (Panicked p, w') => (Panicked p, w')
    | (OutOfFuel, w') => (OutOfFuel, w')
    end.

Definition fail {A : Type} (e : error) : M A := fun w => (Failed e, w).

Definition throw {A : Type} (p : panic) : M A := fun w => (Panicked p, w).

Definition out_of_fuel {A : Type} : M A := fun w => (OutOfFuel, w).

Notation "x <- m ;; k" := (bind m (fun x => k))
  (at level 61, m at next level, right associativity).

(** [hd.Seek(offset, whence)] followed by [if err != nil { return nil, err }]. *)
Definition hdSeek (offset whence : Z) : M Z :=
  fun w =>
    let '(r, log) := w in
    let log' := (log ++ [EvSeek offset whence])%list in
    match Seek r offset whence with
    | (inl newOffset, r') => (Done newOffset, (r', log'))
    | (inr e, r') => (Failed (IOError e), (r', log'))
    end.

(** [io.ReadFull(hd, hdBlock[:])] followed by [if err != nil { return nil, err }]. *)
Definition hdReadFull (n : Z) : M (list byte) :=
  fun w =>
    let '(r, log) := w in
    let log' := (log ++ [EvReadFull n])%list in
    match ReadFull r n with
    | (inl bs, r') => (Done bs, (r', log'))
    | (inr e, r') => (Failed (IOError e), (r', log'))
    end.

(** [for partitionsLeft > 0 { ... }]: one logical block per iteration. *)
Fixpoint blocks_loop (fuel : nat) (g : GPTHeader) (partitionsPerBlock : Z)
    (partitions : list GPTPartitionEntry) (partitionsLeft : Z)
  : M (list GPTPartitionEntry) :=
  if 0 <? partitionsLeft then
    match fuel with
    | O => out_of_fuel
    | S fuel' =>
        read <- hdReadFull LogicalBlockSize ;;
        let hdBlock := LogicalBlock read in
        let partReader := bytes.NewReader hdBlock in
        match entries_loop (Z.to_nat partitionsPerBlock) g partReader
                partitions partitionsLeft with
        | inl e => fail e
        | inr (partitions', partitionsLeft') =>
            blocks_loop fuel' g partitionsPerBlock partitions' partitionsLeft'
        end
    end
  else ret partitions.

(** Reads the GPT partitions from the location pointed to from the GPT
    header.  [fuel] bounds the number of blocks read.  The slice starts
    empty; the capacity asked of [make] is not part of its value. *)
Definition GetPartitions (fuel : nat) (g : GPTHeader)
  : M (list GPTPartitionEntry) :=
  let target := uint64 (LogicalBlockSize * PartitionEntryLBA g) in
  newOffset <- hdSeek (int64 target) 0 ;;
  if negb (uint64 newOffset =? target) then fail SeekMismatch
  else
    let partitions := [] in
    let partitionsLeft := MaxNumberPartitionEntries g in
    if SizeOfPartitionEntry g =? 0 then throw DivideByZero
    else
      let partitionsPerBlock :=
        uint32 (LogicalBlockSize / SizeOfPartitionEntry g) in
      if negb (LogicalBlockSize mod SizeOfPartitionEntry g =? 0)
      then fail MisalignedEntrySize
      else blocks_loop fuel g partitionsPerBlock partitions partitionsLeft.

(** The reader delivers the blocks [blks], one per full-block read, and
    is left in state [r']. *)
Inductive supplies : R -> list (list byte) -> R -> Prop :=
| supplies_nil : forall r, supplies r [] r
| supplies_cons : forall r read r1 blks r',
    ReadFull r LogicalBlockSize = (inl read, r1) ->
    supplies r1 blks r' ->
    supplies r (LogicalBlock read :: blks) r'.

(** The seek of [GetPartitions] succeeds and lands on the requested
    offset, leaving the reader in state [r']. *)
Definition seek_lands (g : GPTHeader) (r r' : R) : Prop :=
  exists newOffset,
    Seek r (seek_offset g) 0 = (inl newOffset, r') /\
    uint64 newOffset = uint64 (LogicalBlockSize * PartitionEntryLBA g).

End WithReader.

(** A block device held in memory, read like a file: [Seek] with
    [whence = 0] moves to an absolute position and reports it, a negative
    position is an error; [ReadFull] delivers the next [n] bytes. *)
Record MemDisk : Type := mkMemDisk {
  contents : list byte;
  position : Z
}.

Definition MemDisk_Seek (d : MemDisk) (offset whence : Z) : (Z + io_error) * MemDisk :=
  if offset <? 0 then (inr (ErrDevice "negative position"), d)
  else (inl offset, mkMemDisk (contents d) offset).

Definition MemDisk_ReadFull (d : MemDisk) (n : Z) : (list byte + io_error) * MemDisk :=
  let rest := skipn (Z.to_nat (position d)) (contents d) in
  match bytes.ReadFull rest n with
  | (inl bs, _) => (inl bs, mkMemDisk (contents d) (position d + n))
  | (inr e, _) => (inr e, mkMemDisk (contents d) (Z.max (position d) (Z.of_nat (List.length (contents d)))))
  end.

#[export] Instance MemDisk_ReadSeeker : ReadSeeker MemDisk :=
  {| Seek := MemDisk_Seek; ReadFull := MemDisk_ReadFull |}.

(** ** Checksums *)

(** Modelled from the spec: the source computes no checksum ([Verify]
    leaves both CRC checks as TODO), so the CRC-32 the specification asks
    for is defined here from its words: the IEEE polynomial in reflected
    form, bit by bit. *)
Module crc32.

Definition IEEE : Z := 0xedb88320.

Fixpoint shift_bits (n : nat) (c : Z) : Z :=
  match n with
  | O => c
  | S k =>
      shift_bits k
        (if Z.testbit c 0 then Z.lxor (Z.shiftr c 1) IEEE else Z.shiftr c 1)
  end.

Definition update (crc : Z) (b : byte) : Z :=
  shift_bits 8 (Z.lxor crc (byte_to_Z b)).

Definition ChecksumIEEE (data : list byte) : Z :=
  Z.lxor (fold_left update data 0xFFFFFFFF) 0xFFFFFFFF.

End crc32.

Definition set_HeaderCRC32 (c : Z) (g : GPTHeader) : GPTHeader :=
  mkGPTHeader (Signature g) (Revision g) (HeaderSize g) c (Reserved g)
    (MyLBA g) (AltLBA g) (FirstUseableLBA g) (LastUseableLBA g) (Disk g)
    (PartitionEntryLBA g) (MaxNumberPartitionEntries g)
    (SizeOfPartitionEntry g) (PartitionEntryArrayCRC32 g) (Padding g).

Definition set_PartitionEntryArrayCRC32 (c : Z) (g : GPTHeader) : GPTHeader :=
  mkGPTHeader (Signature g) (Revision g) (HeaderSize g) (HeaderCRC32 g)
    (Reserved g) (MyLBA g) (AltLBA g) (FirstUseableLBA g) (LastUseableLBA g)
    (Disk g) (PartitionEntryLBA g) (MaxNumberPartitionEntries g)
    (SizeOfPartitionEntry g) c (Padding g).

(** Modelled from the spec: the bytes of a header on disk, field by field
    in the little-endian layout of the struct (the source only decodes). *)
Definition encodeHeader (g : GPTHeader) : list byte :=
  (Signature g ++
   binary.PutUint32 (Revision g) ++
   binary.PutUint32 (HeaderSize g) ++
   binary.PutUint32 (HeaderCRC32 g) ++
   binary.PutUint32 (Reserved g) ++
   binary.PutUint64 (MyLBA g) ++
   binary.PutUint64 (AltLBA g) ++
   binary.PutUint64 (FirstUseableLBA g) ++
   binary.PutUint64 (LastUseableLBA g) ++
   encodeGUID (Disk g) ++
   binary.PutUint64 (PartitionEntryLBA g) ++
   binary.PutUint32 (MaxNumberPartitionEntries g) ++
   binary.PutUint32 (SizeOfPartitionEntry g) ++
   binary.PutUint32 (PartitionEntryArrayCRC32 g) ++
   Padding g)%list.

(** Modelled from the spec: the header CRC-32, over the [HeaderSize] header
    bytes with the checksum field itself zeroed. *)
Definition headerChecksum (g : GPTHeader) : Z :=
  crc32.ChecksumIEEE
    (firstn (Z.to_nat (HeaderSize g)) (encodeHeader (set_HeaderCRC32 0 g))).

(** Modelled from the spec: the CRC-32 of the raw partition entry array,
    [MaxNumberPartitionEntries * SizeOfPartitionEntry] bytes from the
    start of block [PartitionEntryLBA] of the device. *)
Definition partitionArrayChecksum (g : GPTHeader) (device : list byte) : Z :=
  crc32.ChecksumIEEE
    (firstn (Z.to_nat (MaxNumberPartitionEntries g * SizeOfPartitionEntry g))
       (skipn (Z.to_nat (LogicalBlockSize * PartitionEntryLBA g)) device)).

(** ** Vocabulary for the statements about the entry array *)

Definition all_zero (bs : list byte) : bool :=
  forallb (fun b => Byte.eqb b x00) bs.

(** The first [n] slots of [size] bytes each in what a block reader has
    left. *)
Fixpoint slots (n : nat) (size : Z) (r : list byte) : list (list byte) :=
  match n with
  | O => []
  | S k => firstn (Z.to_nat size) r :: slots k size (skipn (Z.to_nat size) r)
  end.

(** The trailing padding of a slot: what follows its 128 bytes of fixed
    fields. *)
Definition entry_padding (slot : list byte) : list byte := skipn 128 slot.

Definition slot_entry (slot : list byte) : GPTPartitionEntry :=
  decodeEntry (firstn 128 slot).

Definition clean_slots (slots : list (list byte)) : bool :=
  forallb (fun slot => all_zero (entry_padding slot)) slots.

Definition block_slots (g : GPTHeader) (blk : list byte) : list (list byte) :=
  slots (Z.to_nat (uint32 (LogicalBlockSize / SizeOfPartitionEntry g)))
    (SizeOfPartitionEntry g) blk.

(** ** Concrete headers and devices *)

Definition zero_block : list byte := repeat x00 512.

(** A primary header in the conventional place, with the signature,
    reserved field and padding as [Verify] wants them. *)
Definition primary_header (max size : Z) : GPTHeader :=
  {| Signature := EFI_PART; Revision := 0x00010000; HeaderSize := 92;
     HeaderCRC32 := 0; Reserved := 0; MyLBA := 1; AltLBA := 8;
     FirstUseableLBA := 4; LastUseableLBA := 7; Disk := ZeroGUID;
     PartitionEntryLBA := 2; MaxNumberPartitionEntries := max;
     SizeOfPartitionEntry := size; PartitionEntryArrayCRC32 := 0;
     Padding := repeat x00 420 |}.

(** A device of [2 + n] blocks: boot sector, header, then [n] blocks of
    entry array, all zero. *)
Definition blank_disk (n : nat) : MemDisk :=
  mkMemDisk (zero_block ++ zero_block ++ List.concat (repeat zero_block n))%list 0.



Definition name_HI : list Z := 0x0048 :: 0x0049 :: repeat 0 34.

Definition entry_named (name : list Z) : GPTPartitionEntry :=
  mkGPTPartitionEntry ZeroGUID ZeroGUID 0 0 0 name.

(** ** Further vocabulary: fixed-width digits, the inverse layouts *)

(** The [n] low hexadecimal digits of [z], most significant first. *)
Fixpoint hex_fixed (n : nat) (z : Z) : string :=
  match n with
  | O => EmptyString
  | S k => (hex_fixed k (z / 16) ++ String (fmt.udigit (z mod 16)) EmptyString)%string
  end.

(** The layout [binary.Read] gives to the [GPTHeader] struct: the fields
    in declaration order, 92 bytes, then the 420 bytes of padding. *)
Definition decodeHeader (bs : list byte) : GPTHeader :=
  {| Signature := firstn 8 bs;
     Revision := binary.Uint32 (skipn 8 bs);
     HeaderSize := binary.Uint32 (skipn 12 bs);
     HeaderCRC32 := binary.Uint32 (skipn 16 bs);
     Reserved := binary.Uint32 (skipn 20 bs);
     MyLBA := binary.Uint64 (skipn 24 bs);
     AltLBA := binary.Uint64 (skipn 32 bs);
     FirstUseableLBA := binary.Uint64 (skipn 40 bs);
     LastUseableLBA := binary.Uint64 (skipn 48 bs);
     Disk := decodeGUID (skipn 56 bs);
     PartitionEntryLBA := binary.Uint64 (skipn 72 bs);
     MaxNumberPartitionEntries := binary.Uint32 (skipn 80 bs);
     SizeOfPartitionEntry := binary.Uint32 (skipn 84 bs);
     PartitionEntryArrayCRC32 := binary.Uint32 (skipn 88 bs);
     Padding := firstn 420 (skipn 92 bs) |}.

Definition GPTHeader_wf (g : GPTHeader) : Prop :=
  List.length (Signature g) = 8%nat /\
  in_range 32 (Revision g) /\ in_range 32 (HeaderSize g) /\
  in_range 32 (HeaderCRC32 g) /\ in_range 32 (Reserved g) /\
  in_range 64 (MyLBA g) /\ in_range 64 (AltLBA g) /\
  in_range 64 (FirstUseableLBA g) /\ in_range 64 (LastUseableLBA g) /\
  GUID_wf (Disk g) /\
  in_range 64 (PartitionEntryLBA g) /\
  in_range 32 (MaxNumberPartitionEntries g) /\
  in_range 32 (SizeOfPartitionEntry g) /\
  in_range 32 (PartitionEntryArrayCRC32 g) /\
  List.length (Padding g) = 420%nat.

(** The fixed fields of an entry written back in the layout they were
    read in; the package has no such function, it serves to show that
    decoding loses nothing. *)
Definition encodeEntry (e : GPTPartitionEntry) : list byte :=
  (encodeGUID (PartitionType e) ++
   encodeGUID (UniqueParitition e) ++
   binary.PutUint64 (StartingLBA e) ++
   binary.PutUint64 (EndingLBA e) ++
   binary.PutUint64 (Attributes e) ++
   flat_map binary.PutUint16 (PartitionName e))%list.

(** Go's [==] on two [GUID] structs: field by field. *)
Definition GUID_eqb (a b : GUID) : bool :=
  (TimeLow a =? TimeLow b) && (TimeMid a =? TimeMid b) &&
  (TimeHighAndVersion a =? TimeHighAndVersion b) &&
  (ClockSeqAndReserved a =? ClockSeqAndReserved b) &&
  (ClockSeqLow a =? ClockSeqLow b) && bytes_eqb (Node a) (Node b).

(** A device that silently clamps a seek past its end to its end. *)
Record ClampingDisk : Type := mkClampingDisk {
  clamped : MemDisk
}.

Definition ClampingDisk_Seek (d : ClampingDisk) (offset whence : Z)
  : (Z + io_error) * ClampingDisk :=
  let size := Z.of_nat (List.length (contents (clamped d))) in
  match MemDisk_Seek (clamped d) (Z.min offset size) whence with
  | (res, d') => (res, mkClampingDisk d')
  end.

Definition ClampingDisk_ReadFull (d : ClampingDisk) (n : Z)
  : (list byte + io_error) * ClampingDisk :=
  match MemDisk_ReadFull (clamped d) n with
  | (res, d') => (res, mkClampingDisk d')
  end.

#[export] Instance ClampingDisk_ReadSeeker : ReadSeeker ClampingDisk :=
  {| Seek := ClampingDisk_Seek; ReadFull := ClampingDisk_ReadFull |}.

(** ** cmd/gpt/main.go: the [verify] and [show] actions *)

Module fmtd.

(** The decimal digits of [z], most significant first, in front of
    [acc].  A 64-bit value has at most twenty of them. *)
Fixpoint dec_digits (fuel : nat) (z : Z) (acc : string) : string :=
  match fuel with
  | O => acc
  | S k =>
      let acc' := String (ascii_of_nat (48 + Z.to_nat (z mod 10))) acc in
      if z <? 10 then acc' else dec_digits k (z / 10) acc'
  end.

Fixpoint spaces (n : nat) : string :=
  match n with
  | O => EmptyString
  | S k => String " "%char (spaces k)
  end.

(** [%Ns]: the string, with spaces on the left up to [N] characters. *)
Definition fmtS (width : nat) (s : string) : string :=
  (spaces (width - String.length s) ++ s)%string.

(** [%Nd] on an unsigned value. *)
Definition fmtD (width : nat) (z : Z) : string :=
  fmtS width (dec_digits 20 z EmptyString).

Definition nl : string := String (ascii_of_nat 10) EmptyString.

End fmtd.

(** [Printf("%11s %11s %5s %s\n", "Start", "Size", "Index", "Contents")]. *)
Definition show_heading : string :=
  (fmtd.fmtS 11 "Start" ++ " " ++ fmtd.fmtS 11 "Size" ++ " " ++
   fmtd.fmtS 5 "Index" ++ " " ++ "Contents" ++ fmtd.nl)%string.

(** The line printed for the partition at index [i]; the name is added
    when it is not empty. *)
Definition show_line (i : nat) (p : GPTPartitionEntry) : string :=
  let name := GetName p in
  let columns :=
    (fmtd.fmtD 11 (StartingLBA p) ++ " " ++ fmtd.fmtD 11 (Size p) ++ " " ++
     fmtd.fmtD 5 (Z.of_nat i) ++ " " ++ GUID_HumanString (PartitionType p))%string in
  if negb (String.eqb name EmptyString)
  then (columns ++ " (Part name: " ++ name ++ ")" ++ fmtd.nl)%string
  else (columns ++ fmtd.nl)%string.

(** [for i, p := range partitions { if p.PartitionType != gpt.ZeroGUID { ... } }]
    from index [i] on. *)
Fixpoint show_loop (i : nat) (partitions : list GPTPartitionEntry) : list string :=
  match partitions with
  | [] => []
  | p :: rest =>
      if negb (GUID_eqb (PartitionType p) ZeroGUID)
      then show_line i p :: show_loop (S i) rest
      else show_loop (S i) rest
  end.

(** The slots that [show] prints, with their indices, as the loop's
    condition words it. *)
Definition used_slots (partitions : list GPTPartitionEntry)
  : list (nat * GPTPartitionEntry) :=
  filter (fun ip => negb (GUID_eqb (PartitionType (snd ip)) ZeroGUID))
    (combine (seq 0 (List.length partitions)) partitions).

Section MainProgram.

Context {R : Type} {RS : ReadSeeker R}.

Notation "x <- m ;; k" := (bind m (fun x => k))
  (at level 61, m at next level, right associativity).

(** [binary.Read(f, binary.LittleEndian, &header)]: one header's worth of
    bytes through [io.ReadFull], then the field layout; an error goes to
    [log.Fatalf]. *)
Definition binary_Read_header : M GPTHeader :=
  read <- hdReadFull LogicalBlockSize ;;
  ret (decodeHeader (LogicalBlock read)).

(** [main] from the opened device on, for the action [cmd].  [Done lines]
    is a normal end with [lines] printed; [Failed e] is [log.Fatalln] on
    the error [e]. *)
Definition main_action (fuel : nat) (cmd : string) : M (list string) :=
  _ <- binary_Read_header ;;
  header <- binary_Read_header ;;
  if String.eqb cmd "verify" then
    match Verify header with
    | Some err => fail err
    | None => ret [("GPT appears to be valid." ++ fmtd.nl)%string]
    end
  else if String.eqb cmd "show" then
    match Verify header with
    | Some err => fail err
    | None =>
        partitions <- GetPartitions fuel header ;;
        ret (show_heading :: show_loop 0 partitions)
    end
  else ret [].

End MainProgram.

(** ** Further concrete devices *)

(** A device with a boot sector, the header [g] in block 1 and the given
    entry array from block 2 on. *)
Definition gpt_disk (boot : list byte) (g : GPTHeader) (array : list byte) : MemDisk :=
  mkMemDisk (boot ++ encodeHeader g ++ array)%list 0.

(** A 128-byte slot of type "Linux" named "HI", blocks 34 to 2081. *)
Definition linux_slot : list byte :=
  ([xaf; x3d; xc6; x0f; x83; x84; x72; x47; x8e; x79; x3d; x69; xd8; x47; x7d; xe4]
   ++ repeat x11 16
   ++ binary.PutUint64 34 ++ binary.PutUint64 2081 ++ binary.PutUint64 0
   ++ [x48; x00; x49; x00] ++ repeat x00 68)%list.

(** Four slots of 128 bytes: an empty one, the Linux one, two empty. *)
Definition sample_array : list byte :=
  (repeat x00 128 ++ linux_slot ++ repeat x00 256)%list.

(** * Properties *)

(** ** Bytes and little-endian integers *)

Lemma byte_to_Z_range (b : byte) : 0 <= byte_to_Z b < 256.
Proof.
  unfold byte_to_Z. pose proof (Byte.to_N_bounded b). lia.
Qed.

Lemma byte_of_to_Z (b : byte) (z : Z) : byte_of_Z (byte_to_Z b + 256 * z) = b.
Proof.
  unfold byte_of_Z.
  replace ((byte_to_Z b + 256 * z) mod 256) with (byte_to_Z b).
  - unfold byte_to_Z. rewrite N2Z.id, Byte.of_to_N. reflexivity.
  - pose proof (byte_to_Z_range b) as Hb.
    rewrite (Z.mul_comm 256 z), Z.mod_add by lia.
    symmetry. apply Z.mod_small. exact Hb.
Qed.

Lemma le_combine_div (b : byte) (z : Z) : (byte_to_Z b + 256 * z) / 256 = z.
Proof.
  pose proof (byte_to_Z_range b) as Hb.
  rewrite (Z.mul_comm 256 z), Z.div_add by lia.
  rewrite Z.div_small by exact Hb. lia.
Qed.

Lemma le_split_combine (bs : list byte) :
  binary.le_split (List.length bs) (binary.le_combine bs) = bs.
Proof.
  induction bs as [|b rest IH];
    cbn [binary.le_split binary.le_combine List.length].
  - reflexivity.
  - rewrite byte_of_to_Z, le_combine_div, IH. reflexivity.
Qed.

Lemma le_combine_range (bs : list byte) :
  0 <= binary.le_combine bs < 256 ^ Z.of_nat (List.length bs).
Proof.
  induction bs as [|b rest IH].
  - simpl. lia.
  - cbn [binary.le_combine List.length].
    rewrite Nat2Z.inj_succ, Z.pow_succ_r by lia.
    pose proof (byte_to_Z_range b). lia.
Qed.

Lemma bytes_eqb_eq (a b : list byte) : bytes_eqb a b = true <-> a = b.
Proof.
  revert b. induction a as [|x a IH]; intros [|y b]; simpl; split;
    try reflexivity; try discriminate.
  - intros H. apply andb_true_iff in H. destruct H as [Hxy Hab].
    apply Byte.byte_dec_bl in Hxy. apply IH in Hab. congruence.
  - intros H. injection H as -> ->. apply andb_true_iff. split.
    + apply Byte.byte_dec_lb. reflexivity.
    + apply IH. reflexivity.
Qed.

Lemma byte_eqb_x00 (b : byte) : Byte.eqb b x00 = true <-> b = x00.
Proof.
  split; [apply Byte.byte_dec_bl | apply Byte.byte_dec_lb].
Qed.

Lemma range_nonzero_all_zero (err : error) (bs : list byte) :
  range_nonzero err bs = if all_zero bs then None else Some err.
Proof.
  induction bs as [|b rest IH]; simpl.
  - reflexivity.
  - destruct (Byte.eqb b x00); simpl; [exact IH | reflexivity].
Qed.

Lemma all_zero_false (bs : list byte) :
  all_zero bs = false <-> exists b, In b bs /\ b <> x00.
Proof.
  unfold all_zero. induction bs as [|b rest IH]; simpl.
  - split; [discriminate | intros [b [[] _]]].
  - destruct (Byte.eqb b x00) eqn:E; simpl.
    + apply byte_eqb_x00 in E. subst b. rewrite IH. split.
      * intros [c [Hc Hn]]. exists c. auto.
      * intros [c [[Hc | Hc] Hn]]; [congruence | exists c; auto].
    + split; [intros _ | reflexivity].
      exists b. split; [left; reflexivity |].
      intros ->. discriminate E.
Qed.

Lemma all_zero_true (bs : list byte) :
  all_zero bs = true <-> Forall (fun b => b = x00) bs.
Proof.
  unfold all_zero. rewrite forallb_forall, Forall_forall.
  split; intros H b Hb; apply byte_eqb_x00; auto.
Qed.

(** ** guid.go *)

(** C1.  On the all-zero GUID, [String] yields the 36-character zero
    string; [HumanString] compares it with a 37-character case label (one
    zero too many in the last group), finds no match among the labels and
    returns the zero string itself instead of the label for an unused
    slot. *)
Theorem HumanString_ZeroGUID_unlabelled :
  GUID_String ZeroGUID = "00000000-0000-0000-0000-000000000000"%string /\
  String.length (GUID_String ZeroGUID) = 36%nat /\
  GUID_HumanString ZeroGUID = "00000000-0000-0000-0000-000000000000"%string /\
  GUID_HumanString ZeroGUID <> "Unused"%string.
Proof.
  repeat split; try reflexivity.
  vm_compute. discriminate.
Qed.

(** C10.  Decoding sixteen bytes into a GUID and writing the fields back
    in the same layout gives the sixteen bytes again. *)
Theorem GUID_roundtrip (bs : list byte) :
  List.length bs = 16%nat -> encodeGUID (decodeGUID bs) = bs.
Proof.
  intros Hlen.
  do 16 (destruct bs as [|? bs]; [discriminate Hlen |]).
  destruct bs; [| discriminate Hlen].
  unfold encodeGUID, decodeGUID; cbn [TimeLow TimeMid TimeHighAndVersion
    ClockSeqAndReserved ClockSeqLow Node].
  unfold binary.Uint32, binary.Uint16, binary.Uint8,
    binary.PutUint32, binary.PutUint16, binary.PutUint8.
  cbn [firstn skipn].
  repeat match goal with
  | |- context [binary.le_split ?n (binary.le_combine ?l)] =>
      change (binary.le_split n (binary.le_combine l))
        with (binary.le_split (List.length l) (binary.le_combine l));
      rewrite (le_split_combine l)
  end.
  reflexivity.
Qed.

Lemma GUID_roundtrip_witness :
  encodeGUID (decodeGUID (repeat xa5 16)) = repeat xa5 16.
Proof.
  apply (GUID_roundtrip (repeat xa5 16)). reflexivity.
Defined.

(** The decoded fields are within the range of their types. *)
Lemma decodeGUID_wf (bs : list byte) :
  List.length bs = 16%nat -> GUID_wf (decodeGUID bs).
Proof.
  intros Hlen.
  do 16 (destruct bs as [|? bs]; [discriminate Hlen |]).
  destruct bs; [| discriminate Hlen].
  unfold GUID_wf, in_range, decodeGUID; cbn [TimeLow TimeMid TimeHighAndVersion
    ClockSeqAndReserved ClockSeqLow Node].
  unfold binary.Uint32, binary.Uint16, binary.Uint8. cbn [firstn skipn].
  repeat split;
    match goal with
    | |- context [binary.le_combine ?l] =>
        pose proof (le_combine_range l) as Hr; cbn [List.length] in Hr
    | _ => idtac
    end; try (change (256 ^ Z.of_nat 4) with (2 ^ 32) in Hr);
    try (change (256 ^ Z.of_nat 2) with (2 ^ 16) in Hr);
    try (change (256 ^ Z.of_nat 1) with (2 ^ 8) in Hr); lia.
Qed.

(** ** gpt.go: [Verify] *)

Lemma Verify_checks_pass (g : GPTHeader) :
  Signature g = EFI_PART -> Reserved g = 0 -> all_zero (Padding g) = true ->
  MyLBA g = 1 -> PartitionEntryLBA g = 2 -> Verify g = None.
Proof.
  intros Hs Hr Hp Hm Hl. unfold Verify.
  rewrite Hs, Hr, Hm, Hl, range_nonzero_all_zero, Hp. reflexivity.
Qed.

(** Neither stored checksum is looked at. *)
Lemma Verify_ignores_checksums (g : GPTHeader) (c1 c2 : Z) :
  Verify (set_HeaderCRC32 c1 (set_PartitionEntryArrayCRC32 c2 g)) = Verify g.
Proof. reflexivity. Qed.

(** C4.  [Verify] checks the signature, then the reserved field, then the
    padding bytes, then the two block addresses, and reports the first
    check that fails. *)
Theorem Verify_first_failing_check (g : GPTHeader) :
  (Signature g <> EFI_PART -> Verify g = Some (BadSignature (Signature g))) /\
  (Signature g = EFI_PART -> Reserved g <> 0 ->
     Verify g = Some ReservedFieldNonZero) /\
  (Signature g = EFI_PART -> Reserved g = 0 ->
     (exists b, In b (Padding g) /\ b <> x00) ->
     Verify g = Some PaddingCorrupted) /\
  (Signature g = EFI_PART -> Reserved g = 0 ->
     Forall (fun b => b = x00) (Padding g) ->
     MyLBA g <> 1 \/ PartitionEntryLBA g <> 2 ->
     Verify g = Some UnsupportedLayout).
Proof.
  unfold Verify. repeat split.
  - intros Hs. destruct (bytes_eqb (Signature g) EFI_PART) eqn:E.
    + apply bytes_eqb_eq in E. contradiction.
    + reflexivity.
  - intros Hs Hr. rewrite Hs. cbn [bytes_eqb EFI_PART negb].
    change (bytes_eqb EFI_PART EFI_PART) with true. cbn [negb].
    destruct (Z.eqb_spec (Reserved g) 0); [contradiction | reflexivity].
  - intros Hs Hr Hp. rewrite Hs, Hr.
    change (bytes_eqb EFI_PART EFI_PART) with true. cbn [negb Z.eqb].
    apply all_zero_false in Hp.
    rewrite range_nonzero_all_zero, Hp. reflexivity.
  - intros Hs Hr Hp Hl. rewrite Hs, Hr.
    change (bytes_eqb EFI_PART EFI_PART) with true. cbn [negb Z.eqb].
    apply all_zero_true in Hp.
    rewrite range_nonzero_all_zero, Hp.
    destruct (Z.eqb_spec (MyLBA g) 1), (Z.eqb_spec (PartitionEntryLBA g) 2);
      cbn [negb orb]; try reflexivity.
    destruct Hl; contradiction.
Qed.

(** A header that fails only by one byte deep in its padding. *)
Lemma Verify_first_failing_check_witness :
  Verify (mkGPTHeader EFI_PART 0x00010000 92 0 0 1 8 4 7 ZeroGUID 2 4 128 0
            (repeat x00 300 ++ [x01] ++ repeat x00 119))
  = Some PaddingCorrupted.
Proof.
  apply (proj1 (proj2 (proj2 (Verify_first_failing_check _)))).
  - reflexivity.
  - reflexivity.
  - exists x01. split.
    + cbn [Padding]. apply in_or_app. right. left. reflexivity.
    + discriminate.
Defined.

(** C3.  [Verify] computes no checksum: a header in the conventional
    place whose two stored checksums both disagree with the CRC-32 of the
    header bytes and of the entry array on the device is accepted. *)
Theorem Verify_accepts_checksum_mismatch :
  let g := primary_header 4 128 in
  let device := contents (blank_disk 1) in
  Verify g = None /\
  HeaderCRC32 g <> headerChecksum g /\
  PartitionEntryArrayCRC32 g <> partitionArrayChecksum g device.
Proof.
  cbv zeta. split; [reflexivity |].
  split; vm_compute; discriminate.
Qed.

(** ** gpt.go: accessors of a partition entry *)

(** C9.  [Size] is the difference of the two block addresses as a 64-bit
    unsigned value: the plain difference when the partition does not end
    before it starts, the difference plus [2^64] otherwise.  It is a total
    function: no input makes it fail. *)
Theorem Size_wraps (e : GPTPartitionEntry) :
  GPTPartitionEntry_wf e ->
  in_range 64 (Size e) /\
  (Size e - (EndingLBA e - StartingLBA e)) mod 2 ^ 64 = 0 /\
  (StartingLBA e <= EndingLBA e -> Size e = EndingLBA e - StartingLBA e) /\
  (EndingLBA e < StartingLBA e ->
     Size e = EndingLBA e - StartingLBA e + 2 ^ 64).
Proof.
  unfold GPTPartitionEntry_wf, in_range, Size, uint64, wrap.
  intros [Hs He].
  pose proof (Z.mod_pos_bound (EndingLBA e - StartingLBA e) (2 ^ 64) ltac:(lia)).
  repeat split; try lia.
  - rewrite Zminus_mod_idemp_l, Z.sub_diag. reflexivity.
  - intros Hle. apply Z.mod_small. lia.
  - intros Hlt.
    rewrite <- (Z.mod_add (EndingLBA e - StartingLBA e) 1 (2 ^ 64)) by lia.
    rewrite Z.mul_1_l. apply Z.mod_small. lia.
Qed.

Lemma Size_wraps_witness :
  Size (mkGPTPartitionEntry ZeroGUID ZeroGUID 100 34 0 name_HI)
  = 34 - 100 + 2 ^ 64.
Proof.
  apply (proj2 (proj2 (proj2
    (Size_wraps (mkGPTPartitionEntry ZeroGUID ZeroGUID 100 34 0 name_HI)
       ltac:(unfold GPTPartitionEntry_wf, in_range; simpl; lia))))).
  simpl. lia.
Defined.

Lemma units_before_zero_nonzero (name : list Z) :
  Forall (fun c => c <> 0) name -> units_before_zero name = name.
Proof.
  induction 1 as [|c rest Hc _ IH]; simpl.
  - reflexivity.
  - destruct (Z.eqb_spec c 0); [contradiction | rewrite IH; reflexivity].
Qed.

(** The loop of [GetName], started at index [i] after a prefix without a
    zero unit, decodes that prefix followed by the units before the first
    zero of the rest. *)
Lemma GetName_loop_spec (pre suf : list Z) :
  Forall (fun c => c <> 0) pre ->
  GetName_loop (pre ++ suf) (List.length suf) (List.length pre)
  = utf8.string_of_runes (utf16.Decode (pre ++ units_before_zero suf)).
Proof.
  revert pre. induction suf as [|c suf IH]; intros pre Hpre.
  - simpl. rewrite !app_nil_r. reflexivity.
  - cbn [GetName_loop List.length units_before_zero].
    rewrite app_nth2, Nat.sub_diag by lia. cbn [nth].
    destruct (Z.eqb_spec c 0) as [Hc | Hc].
    + destruct (Nat.eqb_spec (List.length pre) 0) as [Hz | Hz].
      * apply length_zero_iff_nil in Hz. subst pre. reflexivity.
      * rewrite firstn_app, Nat.sub_diag, firstn_all. cbn [firstn].
        reflexivity.
    + replace (pre ++ c :: suf)%list with ((pre ++ [c]) ++ suf)%list
        by (rewrite <- app_assoc; reflexivity).
      replace (S (List.length pre)) with (List.length (pre ++ [c]))
        by (rewrite length_app; simpl; lia).
      rewrite IH.
      * rewrite <- app_assoc. reflexivity.
      * apply Forall_app. split; [exact Hpre | constructor; [exact Hc | constructor]].
Qed.

(** C7.  [GetName] decodes the code units of the name field that come
    before its first zero unit: nothing when the field starts with a zero
    unit, all 36 units when the field holds no zero unit. *)
Theorem GetName_decodes_until_zero (e : GPTPartitionEntry) :
  List.length (PartitionName e) = 36%nat ->
  GetName e
  = utf8.string_of_runes (utf16.Decode (units_before_zero (PartitionName e))) /\
  (nth 0 (PartitionName e) 0 = 0 -> GetName e = EmptyString) /\
  (Forall (fun c => c <> 0) (PartitionName e) ->
     units_before_zero (PartitionName e) = PartitionName e /\
     GetName e = utf8.string_of_runes (utf16.Decode (PartitionName e))).
Proof.
  intros Hlen.
  assert (Hspec : GetName e
    = utf8.string_of_runes (utf16.Decode (units_before_zero (PartitionName e)))).
  { unfold GetName.
    exact (GetName_loop_spec [] (PartitionName e) (Forall_nil _)). }
  split; [exact Hspec |]. split.
  - intros H0. rewrite Hspec.
    destruct (PartitionName e) as [|c rest]; [discriminate Hlen |].
    cbn [nth] in H0. subst c. reflexivity.
  - intros Hnz. rewrite Hspec, (units_before_zero_nonzero _ Hnz).
    split; reflexivity.
Qed.

(** The name field [0x0048, 0x0049, 0, ...] reads "HI". *)
Lemma GetName_decodes_until_zero_witness :
  GetName (entry_named name_HI) = "HI"%string.
Proof.
  rewrite (proj1 (GetName_decodes_until_zero (entry_named name_HI) eq_refl)).
  reflexivity.
Defined.

Lemma GetName_36_letters :
  GetName (entry_named (repeat 0x41 36))
  = "AAAAAAAAAAAAAAAAAAAAAAAAAAAAAAAAAAAA"%string.
Proof. reflexivity. Qed.

(** ** gpt.go: one block of the entry array *)

Lemma uint32_small (z : Z) : in_range 32 z -> uint32 z = z.
Proof. unfold in_range, uint32, wrap. intros H. apply Z.mod_small. exact H. Qed.

Lemma uint32_range (z : Z) : in_range 32 (uint32 z).
Proof. unfold in_range, uint32, wrap. apply Z.mod_pos_bound. lia. Qed.

Lemma uint32_pred_sub (pl : Z) (n : nat) :
  uint32 (uint32 (pl - 1) - Z.of_nat n) = uint32 (pl - Z.of_nat (S n)).
Proof.
  unfold uint32, wrap. rewrite Zminus_mod_idemp_l. f_equal. lia.
Qed.

Lemma LogicalBlock_length (read : list byte) :
  List.length (LogicalBlock read) = 512%nat.
Proof.
  unfold LogicalBlock, LogicalBlockSize.
  rewrite length_firstn, length_app, repeat_length.
  change (Z.to_nat 512) with 512%nat. lia.
Qed.

(** On a reader that still holds a whole slot, one pass of the loop body
    consumes the slot; it yields the entry decoded from the fixed fields
    when the trailing padding is all zero and the padding error
    otherwise. *)
Lemma read_entry_slot (g : GPTHeader) (r : list byte) (s : nat) :
  SizeOfPartitionEntry g = Z.of_nat s -> (128 <= s)%nat ->
  Z.of_nat s < 2 ^ 32 -> (s <= List.length r)%nat ->
  read_entry g r
  = (if all_zero (entry_padding (firstn s r))
     then inl (slot_entry (firstn s r)) else inr EntryPaddingCorrupted,
     skipn s r).
Proof.
  intros Hsize Hmin Hmax Hlen.
  assert (Hpad : entry_padding (firstn s r) = firstn (s - 128) (skipn 128 r)).
  { unfold entry_padding. rewrite skipn_firstn_comm. reflexivity. }
  assert (Hfix : slot_entry (firstn s r) = decodeEntry (firstn 128 r)).
  { unfold slot_entry. rewrite firstn_firstn.
    replace (Nat.min 128 s) with 128%nat by lia. reflexivity. }
  rewrite Hpad, Hfix.
  unfold read_entry, binary_Read_entry, bytes.ReadFull.
  change (128 <=? 0) with false. cbv iota.
  destruct (Z.eqb_spec (Z.of_nat (List.length r)) 0) as [E | _]; [lia |].
  destruct (Z.ltb_spec (Z.of_nat (List.length r)) 128) as [E | _]; [lia |].
  change (Z.to_nat 128) with 128%nat.
  rewrite Hsize, uint32_small by (unfold in_range; lia).
  destruct (Z.ltb_spec 0 (Z.of_nat s - 128)) as [Hpos | Hzero].
  - destruct (Z.leb_spec (Z.of_nat s - 128) 0) as [E | _]; [lia |].
    rewrite length_skipn.
    destruct (Z.eqb_spec (Z.of_nat (List.length r - 128)) 0) as [E | _]; [lia |].
    destruct (Z.ltb_spec (Z.of_nat (List.length r - 128)) (Z.of_nat s - 128))
      as [E | _]; [lia |].
    replace (Z.to_nat (Z.of_nat s - 128)) with (s - 128)%nat by lia.
    rewrite length_firstn, length_skipn.
    replace (Nat.min (s - 128) (List.length r - 128)) with (s - 128)%nat by lia.
    rewrite uint32_small by (unfold in_range; lia).
    destruct (Z.eqb_spec (Z.of_nat (s - 128)) (Z.of_nat s - 128)) as [_ | E];
      [| lia].
    cbn [negb]. rewrite range_nonzero_all_zero, skipn_skipn.
    replace (s - 128 + 128)%nat with s by lia.
    destruct (all_zero (firstn (s - 128) (skipn 128 r))); reflexivity.
  - assert (s = 128%nat) by lia. subst s.
    cbn [Nat.sub firstn all_zero forallb]. reflexivity.
Qed.

Lemma slots_length (n : nat) (size : Z) (r : list byte) :
  List.length (slots n size r) = n.
Proof.
  revert r. induction n as [|n IH]; intros r; simpl; [| rewrite IH]; reflexivity.
Qed.

(** The inner loop over a reader that still holds [n] whole slots: it
    fails on the first slot with dirty padding, and otherwise appends the
    [n] decoded entries and counts [partitionsLeft] down by [n]. *)
Lemma entries_loop_slots (g : GPTHeader) (s n : nat) :
  SizeOfPartitionEntry g = Z.of_nat s -> (128 <= s)%nat -> Z.of_nat s < 2 ^ 32 ->
  forall (r : list byte) (partitions : list GPTPartitionEntry) (pl : Z),
  in_range 32 pl -> (n * s <= List.length r)%nat ->
  entries_loop n g r partitions pl
  = if forallb (fun slot => all_zero (entry_padding slot))
         (slots n (Z.of_nat s) r)
    then inr ((partitions ++ map slot_entry (slots n (Z.of_nat s) r))%list,
              uint32 (pl - Z.of_nat n))
    else inl EntryPaddingCorrupted.
Proof.
  intros Hsize Hmin Hmax. induction n as [|n IH]; intros r partitions pl Hpl Hlen.
  - cbn [entries_loop slots forallb map]. rewrite app_nil_r.
    rewrite Z.sub_0_r, uint32_small by exact Hpl. reflexivity.
  - cbn [entries_loop slots forallb map]. rewrite Nat2Z.id.
    rewrite (read_entry_slot g r s Hsize Hmin Hmax) by lia.
    destruct (all_zero (entry_padding (firstn s r))); cbn [andb]; [| reflexivity].
    rewrite IH.
    + rewrite uint32_pred_sub, <- app_assoc. reflexivity.
    + apply uint32_range.
    + rewrite length_skipn. simpl in Hlen. lia.
Qed.

(** Whatever the slots hold, a pass of the inner loop that succeeds has
    counted [partitionsLeft] down once per entry. *)
Lemma entries_loop_count (g : GPTHeader) (n : nat) :
  forall (r : list byte) (partitions partitions' : list GPTPartitionEntry)
         (pl pl' : Z),
  in_range 32 pl ->
  entries_loop n g r partitions pl = inr (partitions', pl') ->
  pl' = uint32 (pl - Z.of_nat n) /\
  List.length partitions' = (List.length partitions + n)%nat.
Proof.
  induction n as [|n IH]; intros r partitions partitions' pl pl' Hpl Hrun.
  - cbn [entries_loop] in Hrun. injection Hrun as <- <-.
    rewrite Z.sub_0_r, uint32_small by exact Hpl. lia.
  - cbn [entries_loop] in Hrun.
    destruct (read_entry g r) as [[p | e] r1]; [| discriminate Hrun].
    apply IH in Hrun; [| apply uint32_range].
    destruct Hrun as [-> ->].
    rewrite uint32_pred_sub, length_app. simpl. split; [reflexivity | lia].
Qed.

(** ** gpt.go: [GetPartitions] *)

(** Runs [GetPartitions] through a seek that lands. *)
Ltac seek_offset_step H :=
  unfold GetPartitions, bind, hdSeek, seek_offset;
  let off := fresh "off" in
  let Hs := fresh "Hs" in
  let Ho := fresh "Ho" in
  destruct H as [off [Hs Ho]]; unfold seek_offset in Hs;
  rewrite Hs, Ho, Z.eqb_refl; cbn [negb].

Section GetPartitionsProperties.

Context {R : Type} {RS : ReadSeeker R}.


(** An error of the seek is handed up before the header is looked at. *)
Lemma GetPartitions_seek_error
    (fuel : nat) (g : GPTHeader) (r r1 : R) (log : list IOEvent) (e : io_error) :
  Seek r (seek_offset g) 0 = (inr e, r1) ->
  GetPartitions fuel g (r, log)
  = (Failed (IOError e), (r1, (log ++ [EvSeek (seek_offset g) 0])%list)).
Proof.
  intros Hs. unfold GetPartitions, bind, hdSeek, seek_offset in *.
  rewrite Hs. reflexivity.
Qed.



End GetPartitionsProperties.






Section BlocksLoopProperties.

Context {R : Type} {RS : ReadSeeker R}.

Variable g : GPTHeader.
Variables s ppb : nat.
Hypothesis Hsize : SizeOfPartitionEntry g = Z.of_nat s.
Hypothesis Hmin : (128 <= s)%nat.
Hypothesis Hmax : (s <= 512)%nat.
Hypothesis Hfit : (ppb * s <= 512)%nat.

Lemma entries_loop_block (read : list byte) partitions pl :
  in_range 32 pl ->
  entries_loop ppb g (bytes.NewReader (LogicalBlock read)) partitions pl
  = if clean_slots (slots ppb (Z.of_nat s) (LogicalBlock read))
    then inr ((partitions ++ map slot_entry (slots ppb (Z.of_nat s) (LogicalBlock read)))%list,
              uint32 (pl - Z.of_nat ppb))
    else inl EntryPaddingCorrupted.
Proof.
  intros Hpl. unfold bytes.NewReader, clean_slots.
  apply entries_loop_slots; try assumption.
  - lia.
  - rewrite LogicalBlock_length. exact Hfit.
Qed.


(** When every supplied block is clean and the count of entries is
    exactly what the blocks hold, the outer loop reads each block once
    and returns all the decoded entries in order. *)
Lemma blocks_loop_clean (blks : list (list byte)) (r r2 : R) :
  supplies r blks r2 ->
  forall (fuel : nat) partitions pl log,
  (0 < ppb)%nat ->
  pl = Z.of_nat (List.length blks) * Z.of_nat ppb -> pl < 2 ^ 32 ->
  forallb (fun blk => clean_slots (slots ppb (Z.of_nat s) blk)) blks = true -> (List.length blks <= fuel)%nat ->
  blocks_loop fuel g (Z.of_nat ppb) partitions pl (r, log)
  = (Done (partitions ++ flat_map (fun blk => map slot_entry (slots ppb (Z.of_nat s) blk)) blks)%list,
     (r2, (log ++ repeat (EvReadFull LogicalBlockSize) (List.length blks))%list)).
Proof.
  induction 1 as [r | r read r1 blks r2 Hread _ IH];
    intros fuel partitions pl log Hppb Hpl Hbound Hclean Hfuel.
  - cbn [List.length] in Hpl. subst pl.
    destruct fuel; cbn [blocks_loop repeat flat_map List.length];
      rewrite !app_nil_r; reflexivity.
  - cbn [List.length forallb] in *. apply andb_true_iff in Hclean.
    destruct Hclean as [Hc Hcs].
    destruct fuel as [|fuel]; [lia |].
    cbn [blocks_loop].
    destruct (Z.ltb_spec 0 pl) as [_ | Hz]; [| nia].
    unfold bind, hdReadFull. rewrite Hread, Nat2Z.id.
    rewrite entries_loop_block by (unfold in_range; nia).
    rewrite Hc.
    rewrite (IH fuel); try assumption.
    + cbn [flat_map repeat]. rewrite <- !app_assoc. reflexivity.
    + rewrite uint32_small by (unfold in_range; nia). nia.
    + pose proof (uint32_range (pl - Z.of_nat ppb)) as Hr.
      unfold in_range in Hr. lia.
    + lia.
Qed.

End BlocksLoopProperties.

(** Entry sizes from 128 to 512 bytes: the slot size and the number of
    slots per block as natural numbers. *)
Lemma block_geometry (g : GPTHeader) :
  128 <= SizeOfPartitionEntry g <= 512 ->
  exists s ppb : nat,
    SizeOfPartitionEntry g = Z.of_nat s /\
    LogicalBlockSize / SizeOfPartitionEntry g = Z.of_nat ppb /\
    uint32 (LogicalBlockSize / SizeOfPartitionEntry g) = Z.of_nat ppb /\
    (128 <= s)%nat /\ (s <= 512)%nat /\ (ppb * s <= 512)%nat /\ (0 < ppb)%nat.
Proof.
  intros Hsize.
  exists (Z.to_nat (SizeOfPartitionEntry g)),
         (Z.to_nat (LogicalBlockSize / SizeOfPartitionEntry g)).
  unfold LogicalBlockSize.
  pose proof (Z.mul_div_le 512 (SizeOfPartitionEntry g) ltac:(lia)) as Hle.
  pose proof (Z.div_str_pos 512 (SizeOfPartitionEntry g) ltac:(lia)) as Hpos.
  assert (Hq : 512 / SizeOfPartitionEntry g <= 4).
  { apply Z.div_le_upper_bound; lia. }
  repeat split; try lia.
  rewrite uint32_small by (unfold in_range; lia). lia.
Qed.

Lemma divides_block_le (g : GPTHeader) :
  0 < SizeOfPartitionEntry g ->
  LogicalBlockSize mod SizeOfPartitionEntry g = 0 ->
  SizeOfPartitionEntry g <= 512.
Proof.
  unfold LogicalBlockSize. intros Hpos Hmod.
  destruct (Z.leb_spec (SizeOfPartitionEntry g) 512) as [H | H]; [exact H |].
  rewrite Z.mod_small in Hmod by lia. discriminate Hmod.
Qed.

Section GetPartitionsArray.

Context {R : Type} {RS : ReadSeeker R}.


(** When the count of entries is a whole number of blocks, the reader
    delivers those blocks and every slot has clean padding, the call
    returns one entry per slot, empty slots included, after one seek and
    one full-block read per block. *)
Lemma GetPartitions_reads_whole_blocks
    (fuel : nat) (g : GPTHeader) (r r1 r2 : R) (log : list IOEvent)
    (blks : list (list byte)) :
  seek_lands g r r1 ->
  128 <= SizeOfPartitionEntry g ->
  LogicalBlockSize mod SizeOfPartitionEntry g = 0 ->
  MaxNumberPartitionEntries g
    = Z.of_nat (List.length blks) * (LogicalBlockSize / SizeOfPartitionEntry g) ->
  MaxNumberPartitionEntries g < 2 ^ 32 ->
  supplies r1 blks r2 ->
  Forall (fun blk => Forall (fun slot => all_zero (entry_padding slot) = true)
                       (block_slots g blk)) blks ->
  (List.length blks <= fuel)%nat ->
  let entries := flat_map (fun blk => map slot_entry (block_slots g blk)) blks in
  GetPartitions fuel g (r, log)
  = (Done entries,
     (r2, (log ++ EvSeek (seek_offset g) 0
               :: repeat (EvReadFull LogicalBlockSize) (List.length blks))%list)) /\
  Z.of_nat (List.length entries) = MaxNumberPartitionEntries g.
Proof.
  intros Hseek Hlow Hmod Hcount Hbound Hsup Hclean Hfuel.
  pose proof (divides_block_le g ltac:(lia) Hmod) as Hhigh.
  destruct (block_geometry g (conj Hlow Hhigh))
    as (s & ppb & Hs & Hq & Hppb & Hmin & Hmax & Hfit & Hpos).
  assert (Hslots : forall blk, block_slots g blk = slots ppb (Z.of_nat s) blk).
  { intros blk. unfold block_slots. rewrite Hppb, Nat2Z.id, Hs. reflexivity. }
  rewrite Hq in Hcount.
  assert (Hentries :
    flat_map (fun blk => map slot_entry (block_slots g blk)) blks
    = flat_map (fun blk => map slot_entry (slots ppb (Z.of_nat s) blk)) blks).
  { apply flat_map_ext. intros blk. rewrite Hslots. reflexivity. }
  cbv zeta. rewrite Hentries. split.
  - seek_offset_step Hseek.
    destruct (Z.eqb_spec (SizeOfPartitionEntry g) 0); [lia |].
    rewrite Hmod. cbn [Z.eqb negb]. rewrite Hppb.
    rewrite (blocks_loop_clean g s ppb Hs Hmin Hmax Hfit blks r1 r2 Hsup);
      try assumption; try lia.
    + cbn [app]. rewrite <- app_assoc. reflexivity.
    + rewrite forallb_forall. intros blk Hblk.
      rewrite Forall_forall in Hclean. specialize (Hclean blk Hblk).
      rewrite Hslots, Forall_forall in Hclean.
      unfold clean_slots. rewrite forallb_forall. exact Hclean.
  - rewrite Hcount. clear. induction blks as [|blk blks IH];
      cbn [flat_map List.length]; [reflexivity |].
    rewrite length_app, length_map, slots_length. lia.
Qed.

End GetPartitionsArray.


(** The header of the specification's example: four entries of 128 bytes
    are one block, read with one seek and one full-block read. *)
Lemma GetPartitions_four_entries_one_read :
  exists entries,
    GetPartitions 8 (primary_header 4 128) (blank_disk 1, [])
    = (Done entries,
       (mkMemDisk (contents (blank_disk 1)) 1536,
        [EvSeek 1024 0; EvReadFull 512])) /\
    List.length entries = 4%nat /\
    Forall (fun e => PartitionType e = ZeroGUID) entries.
Proof.
  eexists. split; [vm_compute; reflexivity |].
  split; [reflexivity | repeat constructor].
Qed.

Section UnalignedCount.

Context {R : Type} {RS : ReadSeeker R}.

(** A count of entries that is not a multiple of the slots per block is
    never brought to zero at the end of a block: the [uint32] counter is
    only tested between blocks and steps over zero inside one. *)
Lemma blocks_loop_unaligned (fuel : nat) (g : GPTHeader) (ppb : Z) :
  0 < ppb -> (ppb | 2 ^ 32) ->
  forall partitions pl (w : World) entries,
  in_range 32 pl -> pl mod ppb <> 0 ->
  fst (blocks_loop fuel g ppb partitions pl w) <> Done entries.
Proof.
  intros Hpos Hdiv.
  induction fuel as [|fuel IH]; intros partitions pl [r log] entries Hpl Hrem;
    cbn [blocks_loop].
  - destruct (Z.ltb_spec 0 pl) as [_ | Hz]; [discriminate |].
    unfold in_range in Hpl. assert (pl = 0) by lia. subst pl.
    rewrite Z.mod_0_l in Hrem by lia. contradiction.
  - destruct (Z.ltb_spec 0 pl) as [_ | Hz].
    + unfold bind, hdReadFull.
      destruct (ReadFull r LogicalBlockSize) as [[read | e] r1]; [| discriminate].
      destruct (entries_loop _ g _ partitions pl) as [e | [partitions' pl']] eqn:E;
        [discriminate |].
      apply entries_loop_count in E; [| exact Hpl]. destruct E as [-> _].
      apply IH; [apply uint32_range |].
      rewrite Z2Nat.id by lia. unfold uint32, wrap.
      rewrite Z.mod_mod_divide by exact Hdiv.
      rewrite <- (Z.mod_add (pl - ppb) 1 ppb) by lia.
      replace (pl - ppb + 1 * ppb) with pl by lia. exact Hrem.
    + unfold in_range in Hpl. assert (pl = 0) by lia. subst pl.
      rewrite Z.mod_0_l in Hrem by lia. contradiction.
Qed.

(** [GetPartitions] never returns the entries of a header whose count of
    entries is not a whole number of blocks, whatever the reader holds. *)
Lemma GetPartitions_unaligned_count_never_returns
    (fuel : nat) (g : GPTHeader) (w : World) entries :
  0 < SizeOfPartitionEntry g ->
  LogicalBlockSize mod SizeOfPartitionEntry g = 0 ->
  in_range 32 (MaxNumberPartitionEntries g) ->
  MaxNumberPartitionEntries g mod (LogicalBlockSize / SizeOfPartitionEntry g) <> 0 ->
  fst (GetPartitions fuel g w) <> Done entries.
Proof.
  intros Hpos Hmod Hmax Hrem. destruct w as [r log].
  pose proof (divides_block_le g Hpos Hmod) as Hle.
  unfold LogicalBlockSize in *.
  pose proof (Z.div_str_pos 512 (SizeOfPartitionEntry g) ltac:(lia)) as Hq.
  pose proof (Z.mul_div_le 512 (SizeOfPartitionEntry g) Hpos) as Hqle.
  unfold GetPartitions, bind, hdSeek.
  destruct (Seek r _ 0) as [[off | e] r1]; [| discriminate].
  destruct (negb _); [discriminate |].
  destruct (Z.eqb_spec (SizeOfPartitionEntry g) 0); [lia |].
  unfold LogicalBlockSize. rewrite Hmod. cbn [Z.eqb negb].
  rewrite uint32_small by (unfold in_range; nia).
  apply blocks_loop_unaligned; try assumption.
  apply Z.divide_trans with 512.
  - exists (SizeOfPartitionEntry g).
    apply (proj2 (Z.div_exact 512 (SizeOfPartitionEntry g) ltac:(lia))) in Hmod.
    exact Hmod.
  - exists 8388608. reflexivity.
Qed.

End UnalignedCount.

(** C2.  A header that passes [Verify] and declares five entries of 128
    bytes, on a device that holds two blocks of entry array (room for
    eight entries): [GetPartitions] decodes all eight slots, its counter
    of entries left steps from zero to [2^32 - 3], and it asks for a third
    block; the call ends with the reader's end-of-file error instead of
    the five entries. *)
Theorem GetPartitions_five_entries_overrun :
  let g := primary_header 5 128 in
  Verify g = None /\
  Z.of_nat (List.length (contents (blank_disk 2)))
    = LogicalBlockSize * PartitionEntryLBA g + 2 * LogicalBlockSize /\
  GetPartitions 8 g (blank_disk 2, [])
  = (Failed (IOError EOF),
     (mkMemDisk (contents (blank_disk 2)) 2048,
      [EvSeek 1024 0; EvReadFull 512; EvReadFull 512; EvReadFull 512])) /\
  entries_loop 4 g (bytes.NewReader zero_block) [] 1
  = inr (repeat (slot_entry zero_block) 4, 2 ^ 32 - 3).
Proof.
  cbv zeta. repeat split; vm_compute; reflexivity.
Qed.

(** * Further properties *)

(** ** [GetPartitions]: what it returns and what it asks of the device *)

Lemma slots_per_block (g : GPTHeader) :
  0 < SizeOfPartitionEntry g ->
  LogicalBlockSize mod SizeOfPartitionEntry g = 0 ->
  0 < LogicalBlockSize / SizeOfPartitionEntry g <= 512 /\
  uint32 (LogicalBlockSize / SizeOfPartitionEntry g)
    = LogicalBlockSize / SizeOfPartitionEntry g /\
  (LogicalBlockSize / SizeOfPartitionEntry g | 2 ^ 32).
Proof.
  intros Hpos Hmod. pose proof (divides_block_le g Hpos Hmod) as Hle.
  unfold LogicalBlockSize in *.
  pose proof (Z.div_str_pos 512 (SizeOfPartitionEntry g) ltac:(lia)) as Hq.
  pose proof (Z.mul_div_le 512 (SizeOfPartitionEntry g) Hpos) as Hqle.
  assert (Hb : 0 < 512 / SizeOfPartitionEntry g <= 512) by nia.
  split; [exact Hb |]. split.
  - apply uint32_small. unfold in_range. lia.
  - apply Z.divide_trans with 512.
    + exists (SizeOfPartitionEntry g).
      apply (proj2 (Z.div_exact 512 (SizeOfPartitionEntry g) ltac:(lia))) in Hmod.
      exact Hmod.
    + exists 8388608. reflexivity.
Qed.

Section GetPartitionsOutcomes.

Context {R : Type} {RS : ReadSeeker R}.

Lemma blocks_loop_returns_count (fuel : nat) (g : GPTHeader) (ppb : Z) :
  0 < ppb -> (ppb | 2 ^ 32) ->
  forall partitions pl (w : World) entries,
  in_range 32 pl ->
  fst (blocks_loop fuel g ppb partitions pl w) = Done entries ->
  Z.of_nat (List.length entries) = Z.of_nat (List.length partitions) + pl.
Proof.
  intros Hpos Hdiv.
  induction fuel as [|fuel IH]; intros partitions pl [r log] entries Hpl Hrun;
    pose proof Hrun as Hwhole; cbn [blocks_loop] in Hrun.
  - destruct (Z.ltb_spec 0 pl) as [_ | Hz]; [discriminate Hrun |].
    injection Hrun as <-. unfold in_range in Hpl. lia.
  - destruct (Z.ltb_spec 0 pl) as [Hgt | Hz].
    + destruct (Z.ltb_spec pl ppb) as [Hshort | Hlong].
      * exfalso. revert Hwhole. apply blocks_loop_unaligned; try assumption.
        rewrite Z.mod_small by lia. lia.
      * unfold bind, hdReadFull in Hrun.
        destruct (ReadFull r LogicalBlockSize) as [[read | e] r1];
          [| discriminate Hrun].
        destruct (entries_loop _ g _ partitions pl) as [e | [partitions' pl']] eqn:E;
          [discriminate Hrun |].
        apply entries_loop_count in E; [| exact Hpl]. destruct E as [-> Hlen].
        apply IH in Hrun; [| apply uint32_range].
        rewrite Hrun, Hlen, Z2Nat.id by lia.
        unfold in_range in Hpl. rewrite uint32_small by (unfold in_range; lia).
        lia.
    + injection Hrun as <-. unfold in_range in Hpl. lia.
Qed.

(** Whatever the reader delivers, a call that returns entries returns as
    many as the header declares, and it returns only for an entry size
    that divides the block size. *)
Theorem GetPartitions_returns_declared_count
    (fuel : nat) (g : GPTHeader) (w : World) (entries : list GPTPartitionEntry) :
  in_range 32 (MaxNumberPartitionEntries g) ->
  in_range 32 (SizeOfPartitionEntry g) ->
  fst (GetPartitions fuel g w) = Done entries ->
  Z.of_nat (List.length entries) = MaxNumberPartitionEntries g /\
  SizeOfPartitionEntry g <> 0 /\
  LogicalBlockSize mod SizeOfPartitionEntry g = 0.
Proof.
  intros Hmax Hsize Hrun. destruct w as [r log].
  unfold GetPartitions, bind, hdSeek in Hrun.
  destruct (Seek r _ 0) as [[off | e] r1]; [| discriminate Hrun].
  destruct (negb _); [discriminate Hrun |].
  destruct (Z.eqb_spec (SizeOfPartitionEntry g) 0) as [| Hnz];
    [discriminate Hrun |].
  destruct (Z.eqb_spec (LogicalBlockSize mod SizeOfPartitionEntry g) 0)
    as [Hmod |]; [| discriminate Hrun].
  cbn [negb] in Hrun.
  unfold in_range in Hsize.
  destruct (slots_per_block g ltac:(lia) Hmod) as [Hq [Hu Hdiv]].
  rewrite Hu in Hrun.
  apply blocks_loop_returns_count in Hrun; try assumption; [| lia].
  cbn [List.length] in Hrun. repeat split; [lia | exact Hnz | exact Hmod].
Qed.



(** A seek that succeeds somewhere else than asked ends the call with the
    seek error of the package; no block is read. *)
Theorem GetPartitions_seek_mismatch
    (fuel : nat) (g : GPTHeader) (r r1 : R) (log : list IOEvent) (newOffset : Z) :
  Seek r (seek_offset g) 0 = (inl newOffset, r1) ->
  uint64 newOffset <> uint64 (LogicalBlockSize * PartitionEntryLBA g) ->
  GetPartitions fuel g (r, log)
  = (Failed SeekMismatch, (r1, (log ++ [EvSeek (seek_offset g) 0])%list)).
Proof.
  intros Hs Hne. unfold GetPartitions, bind, hdSeek, seek_offset in *.
  rewrite Hs.
  destruct (Z.eqb_spec (uint64 newOffset)
              (uint64 (LogicalBlockSize * PartitionEntryLBA g)));
    [contradiction | reflexivity].
Qed.

(** A header that declares no entry gives the empty sequence without any
    block being read, for every entry size that divides the block size. *)
Theorem GetPartitions_no_entries
    (fuel : nat) (g : GPTHeader) (r r1 : R) (log : list IOEvent) :
  seek_lands g r r1 ->
  MaxNumberPartitionEntries g = 0 ->
  SizeOfPartitionEntry g <> 0 ->
  LogicalBlockSize mod SizeOfPartitionEntry g = 0 ->
  GetPartitions fuel g (r, log)
  = (Done [], (r1, (log ++ [EvSeek (seek_offset g) 0])%list)).
Proof.
  intros Hseek Hmax Hnz Hmod. seek_offset_step Hseek.
  destruct (Z.eqb_spec (SizeOfPartitionEntry g) 0); [contradiction |].
  rewrite Hmod, Hmax. cbn [Z.eqb negb].
  destruct fuel; reflexivity.
Qed.

End GetPartitionsOutcomes.

(** The branch that reports too few padding bytes cannot be taken: a read
    from the block reader that succeeds has filled the whole buffer. *)
Lemma read_entry_never_short (g : GPTHeader) (r : bytes.Reader) :
  fst (read_entry g r) <> inr ShortEntryPadding.
Proof.
  unfold read_entry, binary_Read_entry.
  destruct (bytes.ReadFull r 128) as [[bs | e] r1]; [| discriminate].
  pose proof (uint32_range (SizeOfPartitionEntry g - 128)) as Hps.
  set (paddingSize := uint32 (SizeOfPartitionEntry g - 128)) in *.
  destruct (Z.ltb_spec 0 paddingSize) as [Hpos | _]; [| discriminate].
  unfold bytes.ReadFull.
  destruct (Z.leb_spec paddingSize 0) as [| _]; [lia |].
  destruct (Z.of_nat (List.length r1) =? 0); [discriminate |].
  destruct (Z.ltb_spec (Z.of_nat (List.length r1)) paddingSize) as [| Hfit];
    [discriminate |].
  rewrite length_firstn.
  replace (Nat.min (Z.to_nat paddingSize) (List.length r1))
    with (Z.to_nat paddingSize) by lia.
  rewrite Z2Nat.id, uint32_small, Z.eqb_refl by (try exact Hps; lia).
  cbn [negb]. rewrite range_nonzero_all_zero.
  destruct (all_zero _); discriminate.
Qed.

Lemma entries_loop_never_short (g : GPTHeader) (n : nat) :
  forall r partitions pl,
  entries_loop n g r partitions pl <> inl ShortEntryPadding.
Proof.
  induction n as [|n IH]; intros r partitions pl; cbn [entries_loop];
    [discriminate |].
  pose proof (read_entry_never_short g r) as Hre.
  destruct (read_entry g r) as [[p | e] r1]; [apply IH |].
  intros H. injection H as ->. apply Hre. reflexivity.
Qed.

Section GetPartitionsErrors.

Context {R : Type} {RS : ReadSeeker R}.

Lemma blocks_loop_never_short (fuel : nat) (g : GPTHeader) (ppb : Z) :
  forall partitions pl (w : World),
  fst (blocks_loop fuel g ppb partitions pl w) <> Failed ShortEntryPadding.
Proof.
  induction fuel as [|fuel IH]; intros partitions pl [r log];
    cbn [blocks_loop]; destruct (0 <? pl); try discriminate.
  unfold bind, hdReadFull.
  destruct (ReadFull r LogicalBlockSize) as [[read | e] r1]; [| discriminate].
  pose proof (entries_loop_never_short g (Z.to_nat ppb)
                (bytes.NewReader (LogicalBlock read)) partitions pl) as Hel.
  destruct (entries_loop _ g _ partitions pl) as [e | [partitions' pl']];
    [| apply IH].
  intros H. injection H as ->. apply Hel. reflexivity.
Qed.

(** The error "Could not read appropriate number of zeros to pad
    partition entry" is never returned. *)
Theorem GetPartitions_never_short_padding
    (fuel : nat) (g : GPTHeader) (w : World) :
  fst (GetPartitions fuel g w) <> Failed ShortEntryPadding.
Proof.
  destruct w as [r log]. unfold GetPartitions, bind, hdSeek.
  destruct (Seek r _ 0) as [[off | e] r1]; [| discriminate].
  destruct (negb _); [discriminate |].
  destruct (SizeOfPartitionEntry g =? 0); [discriminate |].
  destruct (negb _); [discriminate |].
  apply blocks_loop_never_short.
Qed.


End GetPartitionsErrors.

Section BlocksLoopReadError.

Context {R : Type} {RS : ReadSeeker R}.

Variable g : GPTHeader.
Variables s ppb : nat.
Hypothesis Hsize : SizeOfPartitionEntry g = Z.of_nat s.
Hypothesis Hmin : (128 <= s)%nat.
Hypothesis Hmax : (s <= 512)%nat.
Hypothesis Hfit : (ppb * s <= 512)%nat.


End BlocksLoopReadError.

Section GetPartitionsReadError.

Context {R : Type} {RS : ReadSeeker R}.


End GetPartitionsReadError.

Lemma GetPartitions_returns_declared_count_witness :
  Z.of_nat (List.length (repeat (slot_entry zero_block) 4))
    = MaxNumberPartitionEntries (primary_header 4 128) /\
  SizeOfPartitionEntry (primary_header 4 128) <> 0 /\
  LogicalBlockSize mod SizeOfPartitionEntry (primary_header 4 128) = 0.
Proof.
  apply (GetPartitions_returns_declared_count 8 (primary_header 4 128)
           (blank_disk 1, []) (repeat (slot_entry zero_block) 4)).
  - unfold in_range. simpl. lia.
  - unfold in_range. simpl. lia.
  - vm_compute. reflexivity.
Defined.

Lemma GetPartitions_seek_mismatch_witness :
  GetPartitions 8 (primary_header 4 128)
    (mkClampingDisk (mkMemDisk zero_block 0), [])
  = (Failed SeekMismatch,
     (mkClampingDisk (mkMemDisk zero_block 512), [EvSeek 1024 0])).
Proof.
  apply (GetPartitions_seek_mismatch 8 (primary_header 4 128)
           (mkClampingDisk (mkMemDisk zero_block 0))
           (mkClampingDisk (mkMemDisk zero_block 512)) [] 512).
  - reflexivity.
  - vm_compute. discriminate.
Defined.

Lemma GetPartitions_no_entries_witness :
  GetPartitions 0 (primary_header 0 64) (blank_disk 0, [])
  = (Done [], (mkMemDisk (contents (blank_disk 0)) 1024, [EvSeek 1024 0])).
Proof.
  apply (GetPartitions_no_entries 0 (primary_header 0 64) (blank_disk 0)
           (mkMemDisk (contents (blank_disk 0)) 1024) []).
  - exists 1024. split; reflexivity.
  - reflexivity.
  - discriminate.
  - reflexivity.
Defined.



Lemma GetPartitions_reads_whole_blocks_witness :
  GetPartitions 8 (primary_header 4 128) (blank_disk 1, [])
  = (Done (flat_map (fun blk => map slot_entry
                                  (block_slots (primary_header 4 128) blk))
             [LogicalBlock zero_block]),
     (mkMemDisk (contents (blank_disk 1)) 1536,
      [EvSeek 1024 0; EvReadFull 512])).
Proof.
  apply (GetPartitions_reads_whole_blocks 8 (primary_header 4 128) (blank_disk 1)
           (mkMemDisk (contents (blank_disk 1)) 1024)
           (mkMemDisk (contents (blank_disk 1)) 1536) []
           [LogicalBlock zero_block]).
  - exists 1024. split; reflexivity.
  - simpl. lia.
  - reflexivity.
  - reflexivity.
  - reflexivity.
  - apply (supplies_cons (mkMemDisk (contents (blank_disk 1)) 1024) zero_block
             (mkMemDisk (contents (blank_disk 1)) 1536) []).
    + reflexivity.
    + apply supplies_nil.
  - vm_compute. repeat (constructor; try reflexivity).
  - simpl. lia.
Defined.

Lemma GetPartitions_unaligned_count_never_returns_witness :
  fst (GetPartitions 8 (primary_header 5 128) (blank_disk 2, []))
  <> Done (repeat (slot_entry zero_block) 5).
Proof.
  apply (GetPartitions_unaligned_count_never_returns 8 (primary_header 5 128)
           (blank_disk 2, []) (repeat (slot_entry zero_block) 5)).
  - simpl. lia.
  - reflexivity.
  - unfold in_range. simpl. lia.
  - vm_compute. discriminate.
Defined.

Lemma GetPartitions_seek_error_witness :
  GetPartitions 8
    (mkGPTHeader EFI_PART 0x00010000 92 0 0 1 8 4 7 ZeroGUID (2 ^ 54) 4 128 0
       (repeat x00 420))
    (blank_disk 1, [])
  = (Failed (IOError (ErrDevice "negative position")),
     (blank_disk 1, [EvSeek (- 2 ^ 63) 0])).
Proof.
  apply (GetPartitions_seek_error 8
           (mkGPTHeader EFI_PART 0x00010000 92 0 0 1 8 4 7 ZeroGUID (2 ^ 54)
              4 128 0 (repeat x00 420))
           (blank_disk 1) (blank_disk 1) []
           (ErrDevice "negative position")).
  reflexivity.
Defined.

(** ** [Verify]: the headers it accepts *)

Lemma Verify_accepted_fields (g : GPTHeader) :
  Verify g = None ->
  Signature g = EFI_PART /\ Reserved g = 0 /\
  Forall (fun b => b = x00) (Padding g) /\
  MyLBA g = 1 /\ PartitionEntryLBA g = 2.
Proof.
  unfold Verify. intros H.
  destruct (bytes_eqb (Signature g) EFI_PART) eqn:Es; [| discriminate H].
  apply bytes_eqb_eq in Es. cbn [negb] in H.
  destruct (Z.eqb_spec (Reserved g) 0) as [Er |]; [| discriminate H].
  cbn [negb] in H. rewrite range_nonzero_all_zero in H.
  destruct (all_zero (Padding g)) eqn:Ep; [| discriminate H].
  apply all_zero_true in Ep.
  destruct (Z.eqb_spec (MyLBA g) 1) as [Em |]; [| discriminate H].
  destruct (Z.eqb_spec (PartitionEntryLBA g) 2) as [El |]; [| discriminate H].
  repeat split; assumption.
Qed.

(** [Verify] accepts exactly the headers with the signature, a zero
    reserved field, zero padding and the two conventional block
    addresses; no other field has a say. *)
Theorem Verify_accepts_iff (g : GPTHeader) :
  Verify g = None <->
  Signature g = EFI_PART /\ Reserved g = 0 /\
  Forall (fun b => b = x00) (Padding g) /\
  MyLBA g = 1 /\ PartitionEntryLBA g = 2.
Proof.
  split.
  - apply Verify_accepted_fields.
  - intros (Hs & Hr & Hp & Hm & Hl).
    apply Verify_checks_pass; try assumption.
    apply all_zero_true. exact Hp.
Qed.

(** ** [GetName] on plain names *)

Lemma Decode_below_surrogates (s : list Z) :
  Forall (fun c => c < utf16.surr1) s -> utf16.Decode s = s.
Proof.
  induction 1 as [|c rest Hc _ IH]; cbn [utf16.Decode]; [reflexivity |].
  destruct (Z.ltb_spec c utf16.surr1) as [_ |]; [| lia].
  cbn [orb]. rewrite IH. reflexivity.
Qed.

Lemma string_of_runes_ascii (rs : list Z) :
  Forall (fun c => 0 <= c < 0x80) rs ->
  utf8.string_of_runes rs = string_of_list_ascii (map utf8.chr rs).
Proof.
  induction 1 as [|c rest Hc _ IH];
    cbn [utf8.string_of_runes map string_of_list_ascii]; [reflexivity |].
  rewrite IH. unfold utf8.EncodeRune.
  destruct (Z.ltb_spec c 0) as [| _]; [lia |].
  destruct (Z.ltb_spec 0x10FFFF c) as [| _]; [lia |].
  destruct (Z.leb_spec 0xD800 c) as [| _]; [lia |].
  cbn [orb andb].
  destruct (Z.ltb_spec c 0x80) as [_ |]; [reflexivity | lia].
Qed.

(** A name made of 7-bit characters comes out character for character:
    one character of the Go string per code unit before the first zero
    unit. *)
Theorem GetName_ascii (e : GPTPartitionEntry) :
  Forall (fun c => 0 <= c < 0x80) (units_before_zero (PartitionName e)) ->
  GetName e
  = string_of_list_ascii (map utf8.chr (units_before_zero (PartitionName e))) /\
  String.length (GetName e)
  = List.length (units_before_zero (PartitionName e)).
Proof.
  intros Hascii.
  assert (Hname : GetName e = string_of_list_ascii
            (map utf8.chr (units_before_zero (PartitionName e)))).
  { unfold GetName.
    pose proof (GetName_loop_spec [] (PartitionName e) (Forall_nil _)) as Hloop.
    cbn [app List.length] in Hloop. rewrite Hloop.
    rewrite Decode_below_surrogates.
    - apply string_of_runes_ascii. exact Hascii.
    - eapply Forall_impl; [| exact Hascii].
      unfold utf16.surr1. cbn beta. intros c Hc. lia. }
  split; [exact Hname |].
  rewrite Hname. clear.
  induction (units_before_zero (PartitionName e)) as [|c rest IH];
    cbn [map string_of_list_ascii String.length List.length]; [reflexivity |].
  rewrite IH. reflexivity.
Qed.

Lemma GetName_ascii_witness :
  GetName (entry_named name_HI)
  = string_of_list_ascii
      (map utf8.chr (units_before_zero (PartitionName (entry_named name_HI)))).
Proof.
  apply (GetName_ascii (entry_named name_HI)).
  cbn. repeat constructor; lia.
Defined.

(** ** cmd/gpt: the lines of [show] *)

Lemma GUID_eqb_eq (a b : GUID) : GUID_eqb a b = true <-> a = b.
Proof.
  unfold GUID_eqb. split.
  - intros H. repeat (apply andb_true_iff in H; destruct H as [H ?]).
    repeat match goal with
    | E : (_ =? _) = true |- _ => apply Z.eqb_eq in E
    | E : bytes_eqb _ _ = true |- _ => apply bytes_eqb_eq in E
    end.
    destruct a, b; cbn in *. congruence.
  - intros ->. rewrite !Z.eqb_refl. cbn [andb]. apply bytes_eqb_eq. reflexivity.
Qed.

Lemma show_loop_from (partitions : list GPTPartitionEntry) :
  forall i,
  show_loop i partitions
  = map (fun ip => show_line (fst ip) (snd ip))
      (filter (fun ip => negb (GUID_eqb (PartitionType (snd ip)) ZeroGUID))
         (combine (seq i (List.length partitions)) partitions)).
Proof.
  induction partitions as [|p rest IH]; intros i;
    cbn [show_loop List.length seq combine filter map snd]; [reflexivity |].
  destruct (negb (GUID_eqb (PartitionType p) ZeroGUID));
    cbn [map fst snd]; rewrite IH; reflexivity.
Qed.

Lemma In_combine_seq (A : Type) (l : list A) :
  forall (k i : nat) (x : A),
  In (i, x) (combine (seq k (List.length l)) l) <->
  (k <= i)%nat /\ nth_error l (i - k) = Some x.
Proof.
  induction l as [|y l IH]; intros k i x; cbn [List.length seq combine In].
  - split; [tauto |]. intros [_ H]. destruct (i - k)%nat; discriminate H.
  - rewrite IH. split.
    + intros [H | [Hle Hnth]].
      * injection H as <- <-. rewrite Nat.sub_diag. split; [lia | reflexivity].
      * split; [lia |].
        replace (i - k)%nat with (S (i - S k)) by lia. exact Hnth.
    + intros [Hle Hnth].
      destruct (Nat.eq_dec i k) as [-> | Hne].
      * rewrite Nat.sub_diag in Hnth. injection Hnth as ->. left. reflexivity.
      * right. split; [lia |].
        replace (i - k)%nat with (S (i - S k)) in Hnth by lia. exact Hnth.
Qed.

(** [show] prints, in order, one line for each slot whose type is not the
    zero GUID; the index on a line is the slot's position among all
    slots, the skipped ones included. *)
Theorem show_loop_used_slots (partitions : list GPTPartitionEntry) :
  show_loop 0 partitions
  = map (fun ip => show_line (fst ip) (snd ip)) (used_slots partitions) /\
  forall i p,
    In (i, p) (used_slots partitions) <->
    nth_error partitions i = Some p /\ PartitionType p <> ZeroGUID.
Proof.
  split; [apply show_loop_from |].
  intros i p. unfold used_slots. rewrite filter_In, In_combine_seq.
  cbn [snd]. rewrite Nat.sub_0_r, negb_true_iff.
  split.
  - intros [[_ Hnth] Hq]. split; [exact Hnth |].
    intros Heq. apply GUID_eqb_eq in Heq. congruence.
  - intros [Hnth Hne]. split; [split; [lia | exact Hnth] |].
    destruct (GUID_eqb (PartitionType p) ZeroGUID) eqn:E; [| reflexivity].
    apply GUID_eqb_eq in E. contradiction.
Qed.

(** ** [GUID.String]: the canonical string *)

Lemma str_length_app (a b : string) :
  String.length (a ++ b) = (String.length a + String.length b)%nat.
Proof. induction a as [|c a IH]; cbn; [| rewrite IH]; reflexivity. Qed.

Lemma str_app_assoc (a b c : string) : ((a ++ b) ++ c = a ++ (b ++ c))%string.
Proof. induction a as [|x a IH]; cbn; [| rewrite IH]; reflexivity. Qed.

Lemma str_app_nil_r (a : string) : (a ++ EmptyString)%string = a.
Proof. induction a as [|x a IH]; cbn; [| rewrite IH]; reflexivity. Qed.

Lemma str_app_inj (a a' b b' : string) :
  String.length a = String.length a' ->
  (a ++ b)%string = (a' ++ b')%string -> a = a' /\ b = b'.
Proof.
  revert a'. induction a as [|x a IH]; intros [|x' a'] Hlen Heq;
    try discriminate Hlen; cbn in *.
  - split; [reflexivity | exact Heq].
  - injection Heq as -> Heq. injection Hlen as Hlen.
    destruct (IH a' Hlen Heq) as [-> ->]. split; reflexivity.
Qed.

Lemma zeros_snoc (n : nat) :
  (fmt.zeros n ++ String "0"%char EmptyString)%string = fmt.zeros (S n).
Proof. induction n as [|n IH]; cbn in *; [| rewrite IH]; reflexivity. Qed.

Lemma zeros_length (n : nat) : String.length (fmt.zeros n) = n.
Proof. induction n as [|n IH]; cbn; [| rewrite IH]; reflexivity. Qed.

Lemma hex_fixed_length (n : nat) :
  forall z, String.length (hex_fixed n z) = n.
Proof.
  induction n as [|n IH]; intros z; cbn [hex_fixed]; [reflexivity |].
  rewrite str_length_app, IH. cbn. lia.
Qed.

Lemma hex_fixed_zero (n : nat) : hex_fixed n 0 = fmt.zeros n.
Proof.
  induction n as [|n IH]; cbn [hex_fixed]; [reflexivity |].
  change (0 / 16) with 0. change (0 mod 16) with 0.
  rewrite IH. apply zeros_snoc.
Qed.

(** The digits [fmt] produces for a value that fits in [n] digits, padded
    to [n], are its [n] low digits. *)
Lemma hex_digits_fixed (fuel : nat) :
  forall (n : nat) (z : Z) (acc : string),
  (1 <= n)%nat -> (n <= fuel)%nat -> 0 <= z < 16 ^ Z.of_nat n ->
  exists d : string,
    fmt.hex_digits fuel z acc = (d ++ acc)%string /\
    (String.length d <= n)%nat /\
    (fmt.zeros (n - String.length d) ++ d)%string = hex_fixed n z.
Proof.
  induction fuel as [|fuel IH]; intros n z acc Hn Hfuel Hz; [lia |].
  destruct n as [|k]; [lia |].
  cbn [fmt.hex_digits hex_fixed].
  destruct (Z.ltb_spec z 16) as [Hsmall | Hbig].
  - exists (String (fmt.udigit (z mod 16)) EmptyString).
    split; [reflexivity |]. split; [cbn; lia |].
    cbn [String.length]. rewrite Z.div_small by lia.
    rewrite hex_fixed_zero. replace (S k - 1)%nat with k by lia. reflexivity.
  - assert (Hk : (1 <= k)%nat).
    { destruct k; [| lia]. cbn in Hz. lia. }
    assert (Hq : 0 <= z / 16 < 16 ^ Z.of_nat k).
    { rewrite Nat2Z.inj_succ, Z.pow_succ_r in Hz by lia. split.
      - apply Z.div_pos; lia.
      - apply Z.div_lt_upper_bound; lia. }
    destruct (IH k (z / 16) (String (fmt.udigit (z mod 16)) acc) Hk
                ltac:(lia) Hq) as (d & Hd & Hlen & Hpad).
    exists (d ++ String (fmt.udigit (z mod 16)) EmptyString)%string.
    split; [rewrite Hd, str_app_assoc; reflexivity |].
    rewrite str_length_app. cbn [String.length]. split; [lia |].
    replace (S k - (String.length d + 1))%nat with (k - String.length d)%nat
      by lia.
    rewrite <- str_app_assoc, Hpad. reflexivity.
Qed.

Lemma fmtX_fixed (n : nat) (z : Z) :
  (1 <= n <= 16)%nat -> 0 <= z < 16 ^ Z.of_nat n ->
  fmt.fmtX n z = hex_fixed n z.
Proof.
  intros Hn Hz. unfold fmt.fmtX.
  destruct (hex_digits_fixed 16 n z EmptyString ltac:(lia) ltac:(lia) Hz)
    as (d & Hd & _ & Hpad).
  rewrite Hd, str_app_nil_r. exact Hpad.
Qed.

Lemma hex_fixed_byte (n : nat) (b : byte) (z : Z) :
  hex_fixed (S (S n)) (byte_to_Z b + 256 * z)
  = (hex_fixed n z ++ fmt.byteX b)%string.
Proof.
  pose proof (byte_to_Z_range b) as Hb.
  cbn [hex_fixed]. unfold fmt.byteX. cbv zeta.
  rewrite str_app_assoc. cbn [String.append].
  assert (H1 : (byte_to_Z b + 256 * z) mod 16 = byte_to_Z b mod 16).
  { replace (byte_to_Z b + 256 * z) with (byte_to_Z b + (16 * z) * 16) by lia.
    apply Z.mod_add. lia. }
  assert (H2 : (byte_to_Z b + 256 * z) / 16 = byte_to_Z b / 16 + 16 * z).
  { replace (byte_to_Z b + 256 * z) with (byte_to_Z b + (16 * z) * 16) by lia.
    apply Z.div_add. lia. }
  assert (Hq : 0 <= byte_to_Z b / 16 < 16).
  { split; [apply Z.div_pos; lia | apply Z.div_lt_upper_bound; lia]. }
  rewrite H1, H2.
  replace ((byte_to_Z b / 16 + 16 * z) mod 16) with (byte_to_Z b / 16).
  - replace ((byte_to_Z b / 16 + 16 * z) / 16) with z; [reflexivity |].
    rewrite (Z.mul_comm 16 z), Z.div_add by lia.
    rewrite Z.div_small by lia. lia.
  - rewrite (Z.mul_comm 16 z), Z.mod_add by lia.
    symmetry. apply Z.mod_small. exact Hq.
Qed.

Lemma udigit_inj (a b : Z) :
  0 <= a < 16 -> 0 <= b < 16 -> fmt.udigit a = fmt.udigit b -> a = b.
Proof.
  intros Ha Hb.
  assert (Ea : a = 0 \/ a = 1 \/ a = 2 \/ a = 3 \/ a = 4 \/ a = 5 \/ a = 6 \/
               a = 7 \/ a = 8 \/ a = 9 \/ a = 10 \/ a = 11 \/ a = 12 \/
               a = 13 \/ a = 14 \/ a = 15) by lia.
  assert (Eb : b = 0 \/ b = 1 \/ b = 2 \/ b = 3 \/ b = 4 \/ b = 5 \/ b = 6 \/
               b = 7 \/ b = 8 \/ b = 9 \/ b = 10 \/ b = 11 \/ b = 12 \/
               b = 13 \/ b = 14 \/ b = 15) by lia.
  clear Ha Hb.
  repeat (destruct Ea as [-> | Ea]); try subst a;
    repeat (destruct Eb as [-> | Eb]); try subst b;
    cbn; intros H; first [reflexivity | discriminate H].
Qed.

Lemma hex_fixed_inj (n : nat) :
  forall z z', 0 <= z < 16 ^ Z.of_nat n -> 0 <= z' < 16 ^ Z.of_nat n ->
  hex_fixed n z = hex_fixed n z' -> z = z'.
Proof.
  induction n as [|n IH]; intros z z' Hz Hz' Heq.
  - cbn in Hz, Hz'. lia.
  - cbn [hex_fixed] in Heq.
    rewrite Nat2Z.inj_succ, Z.pow_succ_r in Hz, Hz' by lia.
    apply str_app_inj in Heq; [| rewrite !hex_fixed_length; reflexivity].
    destruct Heq as [Hhi Hlo]. injection Hlo as Hlo.
    apply udigit_inj in Hlo; try (apply Z.mod_pos_bound; lia).
    apply IH in Hhi.
    + rewrite (Z.div_mod z 16), (Z.div_mod z' 16) by lia. congruence.
    + split; [apply Z.div_pos; lia | apply Z.div_lt_upper_bound; lia].
    + split; [apply Z.div_pos; lia | apply Z.div_lt_upper_bound; lia].
Qed.

Lemma byte_to_Z_inj (b b' : byte) : byte_to_Z b = byte_to_Z b' -> b = b'.
Proof.
  unfold byte_to_Z. intros H. apply N2Z.inj in H.
  apply (f_equal Byte.of_N) in H. rewrite !Byte.of_to_N in H. congruence.
Qed.

Lemma byteX_inj (b b' : byte) : fmt.byteX b = fmt.byteX b' -> b = b'.
Proof.
  unfold fmt.byteX. cbv zeta. intros H. injection H as Hlo Hhi.
  pose proof (byte_to_Z_range b) as Hb. pose proof (byte_to_Z_range b') as Hb'.
  apply udigit_inj in Hhi; try (apply Z.mod_pos_bound; lia).
  apply udigit_inj in Hlo;
    try (split; [apply Z.div_pos; lia | apply Z.div_lt_upper_bound; lia]).
  apply byte_to_Z_inj.
  rewrite (Z.div_mod (byte_to_Z b) 16), (Z.div_mod (byte_to_Z b') 16) by lia.
  congruence.
Qed.

Lemma bytesX_length (bs : list byte) :
  String.length (fmt.bytesX bs) = (2 * List.length bs)%nat.
Proof.
  induction bs as [|b bs IH]; cbn [fmt.bytesX List.length]; [reflexivity |].
  rewrite str_length_app, IH. cbn. lia.
Qed.

Lemma bytesX_inj (bs : list byte) :
  forall bs', List.length bs = List.length bs' ->
  fmt.bytesX bs = fmt.bytesX bs' -> bs = bs'.
Proof.
  induction bs as [|b bs IH]; intros [|b' bs'] Hlen Heq;
    try discriminate Hlen; [reflexivity |].
  cbn [fmt.bytesX] in Heq. injection Hlen as Hlen.
  apply str_app_inj in Heq; [| reflexivity].
  destruct Heq as [Hb Hbs]. apply byteX_inj in Hb. subst b'.
  rewrite (IH bs' Hlen Hbs). reflexivity.
Qed.

(** The canonical string of a well-formed GUID, group by group, with
    every group at its full width. *)
Lemma GUID_String_fixed (g : GUID) :
  GUID_wf g ->
  GUID_String g
  = (hex_fixed 8 (TimeLow g) ++ "-" ++
     hex_fixed 4 (TimeMid g) ++ "-" ++
     hex_fixed 4 (TimeHighAndVersion g) ++ "-" ++
     hex_fixed 2 (ClockSeqAndReserved g) ++ hex_fixed 2 (ClockSeqLow g) ++ "-" ++
     fmt.bytesX (Node g))%string.
Proof.
  unfold GUID_wf, in_range. intros (H1 & H2 & H3 & H4 & H5 & H6).
  unfold GUID_String, fmt.fmtSbx.
  rewrite firstn_all2 by lia.
  rewrite !fmtX_fixed by (try lia; cbn; lia).
  reflexivity.
Qed.

(** The canonical string of a GUID whose fields are within their types
    has 36 characters. *)
Theorem GUID_String_length (g : GUID) :
  GUID_wf g -> String.length (GUID_String g) = 36%nat.
Proof.
  intros Hwf. rewrite (GUID_String_fixed g Hwf).
  destruct Hwf as (_ & _ & _ & _ & _ & Hnode).
  repeat (rewrite str_length_app || rewrite hex_fixed_length
          || rewrite bytesX_length).
  rewrite Hnode. reflexivity.
Qed.

Lemma GUID_String_length_witness :
  String.length (GUID_String (decodeGUID (repeat xa5 16))) = 36%nat.
Proof.
  apply (GUID_String_length (decodeGUID (repeat xa5 16))).
  unfold GUID_wf, in_range. cbn. repeat split; lia.
Defined.

(** The canonical string identifies the GUID: two GUIDs whose fields are
    within their types and that print alike are equal. *)
Theorem GUID_String_injective (g h : GUID) :
  GUID_wf g -> GUID_wf h -> GUID_String g = GUID_String h -> g = h.
Proof.
  intros Hg Hh Heq.
  rewrite (GUID_String_fixed g Hg), (GUID_String_fixed h Hh) in Heq.
  destruct Hg as (G1 & G2 & G3 & G4 & G5 & G6).
  destruct Hh as (H1 & H2 & H3 & H4 & H5 & H6).
  unfold in_range in *.
  apply str_app_inj in Heq; [| rewrite !hex_fixed_length; reflexivity].
  destruct Heq as [E1 Heq].
  apply str_app_inj in Heq; [| reflexivity]. destruct Heq as [_ Heq].
  apply str_app_inj in Heq; [| rewrite !hex_fixed_length; reflexivity].
  destruct Heq as [E2 Heq].
  apply str_app_inj in Heq; [| reflexivity]. destruct Heq as [_ Heq].
  apply str_app_inj in Heq; [| rewrite !hex_fixed_length; reflexivity].
  destruct Heq as [E3 Heq].
  apply str_app_inj in Heq; [| reflexivity]. destruct Heq as [_ Heq].
  apply str_app_inj in Heq; [| rewrite !hex_fixed_length; reflexivity].
  destruct Heq as [E4 Heq].
  apply str_app_inj in Heq; [| rewrite !hex_fixed_length; reflexivity].
  destruct Heq as [E5 Heq].
  apply str_app_inj in Heq; [| reflexivity]. destruct Heq as [_ Heq].
  apply hex_fixed_inj in E1; [| cbn; lia | cbn; lia].
  apply hex_fixed_inj in E2; [| cbn; lia | cbn; lia].
  apply hex_fixed_inj in E3; [| cbn; lia | cbn; lia].
  apply hex_fixed_inj in E4; [| cbn; lia | cbn; lia].
  apply hex_fixed_inj in E5; [| cbn; lia | cbn; lia].
  apply bytesX_inj in Heq; [| congruence].
  destruct g, h; cbn in *. congruence.
Qed.

Lemma GUID_String_injective_witness :
  decodeGUID (repeat xa5 16) = decodeGUID (repeat xa5 10 ++ repeat xa5 6).
Proof.
  apply (GUID_String_injective (decodeGUID (repeat xa5 16))
           (decodeGUID (repeat xa5 10 ++ repeat xa5 6))).
  - unfold GUID_wf, in_range. cbn. repeat split; lia.
  - unfold GUID_wf, in_range. cbn. repeat split; lia.
  - reflexivity.
Defined.

(** The string of a GUID read from sixteen bytes shows the first three
    fields with their bytes reversed (they are little-endian on disk) and
    the last two groups in the order of the bytes. *)
Theorem GUID_String_of_bytes
    (b0 b1 b2 b3 b4 b5 b6 b7 b8 b9 b10 b11 b12 b13 b14 b15 : byte) :
  GUID_String (decodeGUID [b0; b1; b2; b3; b4; b5; b6; b7;
                           b8; b9; b10; b11; b12; b13; b14; b15])
  = (fmt.bytesX [b3; b2; b1; b0] ++ "-" ++
     fmt.bytesX [b5; b4] ++ "-" ++
     fmt.bytesX [b7; b6] ++ "-" ++
     fmt.bytesX [b8; b9] ++ "-" ++
     fmt.bytesX [b10; b11; b12; b13; b14; b15])%string.
Proof.
  unfold GUID_String, decodeGUID, fmt.fmtSbx.
  cbn [TimeLow TimeMid TimeHighAndVersion ClockSeqAndReserved ClockSeqLow Node].
  unfold binary.Uint32, binary.Uint16, binary.Uint8. cbn [firstn skipn].
  pose proof (le_combine_range [b0; b1; b2; b3]) as R1.
  pose proof (le_combine_range [b4; b5]) as R2.
  pose proof (le_combine_range [b6; b7]) as R3.
  pose proof (le_combine_range [b8]) as R4.
  pose proof (le_combine_range [b9]) as R5.
  cbn [List.length] in R1, R2, R3, R4, R5.
  rewrite (fmtX_fixed 8), (fmtX_fixed 4 (binary.le_combine [b4; b5])),
    (fmtX_fixed 4), !(fmtX_fixed 2)
    by (try lia; cbn [Z.of_nat Pos.of_succ_nat Pos.succ] in *; lia).
  cbn [binary.le_combine].
  rewrite !hex_fixed_byte.
  unfold fmt.bytesX, fmt.byteX. cbv zeta.
  cbn [hex_fixed String.append]. reflexivity.
Qed.

(** No GUID whose fields are within their types is ever labelled
    "Unused": the label of that case has 37 characters, the canonical
    string always has 36. *)
Theorem HumanString_never_Unused (g : GUID) :
  GUID_wf g -> GUID_HumanString g <> "Unused"%string.
Proof.
  intros Hwf.
  assert (Hlen : String.length (GUID_String g) = 36%nat).
  { rewrite (GUID_String_fixed g Hwf).
    destruct Hwf as (_ & _ & _ & _ & _ & Hnode).
    repeat (rewrite str_length_app || rewrite hex_fixed_length
            || rewrite bytesX_length).
    rewrite Hnode. reflexivity. }
  unfold GUID_HumanString. cbv zeta.
  destruct (String.eqb_spec (GUID_String g)
              "00000000-0000-0000-0000-0000000000000") as [E | _].
  - rewrite E in Hlen. discriminate Hlen.
  - repeat match goal with
    | |- (if ?c then _ else _) <> _ => destruct c; [discriminate |]
    end.
    intros E. rewrite E in Hlen. discriminate Hlen.
Qed.

Lemma HumanString_never_Unused_witness :
  GUID_HumanString (decodeGUID (repeat x00 16)) <> "Unused"%string.
Proof.
  apply (HumanString_never_Unused (decodeGUID (repeat x00 16))).
  unfold GUID_wf, in_range. cbn. repeat split; lia.
Defined.

Lemma decodeGUID_wf_witness : GUID_wf (decodeGUID (repeat xa5 16)).
Proof.
  apply (decodeGUID_wf (repeat xa5 16)). reflexivity.
Defined.

(** ** Decoding: ranges of the fields, and nothing lost *)

Lemma le_combine_firstn_range (n : nat) (bs : list byte) :
  0 <= binary.le_combine (firstn n bs) < 256 ^ Z.of_nat n.
Proof.
  pose proof (le_combine_range (firstn n bs)) as H.
  pose proof (length_firstn n bs) as Hlen.
  assert (256 ^ Z.of_nat (List.length (firstn n bs)) <= 256 ^ Z.of_nat n).
  { apply Z.pow_le_mono_r; lia. }
  lia.
Qed.

Lemma put_get (n : nat) (l : list byte) :
  (n <= List.length l)%nat ->
  binary.le_split n (binary.le_combine (firstn n l)) = firstn n l.
Proof.
  intros Hn.
  replace n with (List.length (firstn n l)) at 1
    by (rewrite length_firstn; lia).
  apply le_split_combine.
Qed.

Lemma firstn_join (A : Type) (a b : nat) (l rest : list A) :
  (firstn a l ++ firstn b (skipn a l) ++ rest)%list
  = (firstn (a + b) l ++ rest)%list.
Proof.
  rewrite app_assoc. f_equal.
  rewrite <- (firstn_skipn a (firstn (a + b) l)).
  rewrite firstn_firstn, skipn_firstn_comm.
  replace (Nat.min a (a + b)) with a by lia.
  replace (a + b - a)%nat with b by lia. reflexivity.
Qed.

Lemma firstn_join_last (A : Type) (a b : nat) (l : list A) :
  (firstn a l ++ firstn b (skipn a l))%list = firstn (a + b) l.
Proof.
  pose proof (firstn_join A a b l []) as H.
  rewrite !app_nil_r in H. exact H.
Qed.

(** Writing a decoded GUID back gives the sixteen bytes it was read
    from, whatever follows them. *)
Lemma encode_decode_GUID_prefix (l : list byte) :
  (16 <= List.length l)%nat -> encodeGUID (decodeGUID l) = firstn 16 l.
Proof.
  intros Hlen. unfold encodeGUID, decodeGUID.
  cbn [TimeLow TimeMid TimeHighAndVersion ClockSeqAndReserved ClockSeqLow Node].
  unfold binary.PutUint32, binary.PutUint16, binary.PutUint8,
    binary.Uint32, binary.Uint16, binary.Uint8.
  rewrite !put_get by (try rewrite length_skipn; lia).
  rewrite (firstn_join _ 4 2 l). cbn [Nat.add].
  rewrite (firstn_join _ 6 2 l). cbn [Nat.add].
  rewrite (firstn_join _ 8 1 l). cbn [Nat.add].
  rewrite (firstn_join _ 9 1 l). cbn [Nat.add].
  rewrite (firstn_join_last _ 10 6 l). reflexivity.
Qed.

Lemma decodeGUID_prefix_wf (l : list byte) :
  (16 <= List.length l)%nat -> GUID_wf (decodeGUID l).
Proof.
  intros Hlen. unfold GUID_wf, in_range, decodeGUID.
  cbn [TimeLow TimeMid TimeHighAndVersion ClockSeqAndReserved ClockSeqLow Node].
  unfold binary.Uint32, binary.Uint16, binary.Uint8.
  pose proof (le_combine_firstn_range 4 l).
  pose proof (le_combine_firstn_range 2 (skipn 4 l)).
  pose proof (le_combine_firstn_range 2 (skipn 6 l)).
  pose proof (le_combine_firstn_range 1 (skipn 8 l)).
  pose proof (le_combine_firstn_range 1 (skipn 9 l)).
  rewrite length_firstn, length_skipn.
  repeat split; lia.
Qed.

Lemma Uint16s_length (n : nat) :
  forall l, List.length (binary.Uint16s n l) = n.
Proof.
  induction n as [|n IH]; intros l; cbn [binary.Uint16s List.length];
    [| rewrite IH]; reflexivity.
Qed.

Lemma Uint16s_range (n : nat) :
  forall l, Forall (in_range 16) (binary.Uint16s n l).
Proof.
  induction n as [|n IH]; intros l; cbn [binary.Uint16s]; constructor.
  - unfold in_range, binary.Uint16.
    pose proof (le_combine_firstn_range 2 l). lia.
  - apply IH.
Qed.

Lemma put_get_Uint16s (n : nat) :
  forall l, (2 * n <= List.length l)%nat ->
  flat_map binary.PutUint16 (binary.Uint16s n l) = firstn (2 * n) l.
Proof.
  induction n as [|n IH]; intros l Hlen; cbn [binary.Uint16s flat_map].
  - reflexivity.
  - unfold binary.PutUint16 at 1. unfold binary.Uint16 at 1.
    rewrite put_get by lia.
    rewrite IH by (rewrite length_skipn; lia).
    rewrite firstn_join_last. f_equal. lia.
Qed.

(** A slot's 128 bytes of fixed fields decode to an entry whose fields
    are within their types: 64-bit addresses and attributes, two
    well-formed GUIDs and a name of 36 units of 16 bits. *)
Theorem decodeEntry_wf (bs : list byte) :
  List.length bs = 128%nat ->
  GPTPartitionEntry_wf (decodeEntry bs) /\
  GUID_wf (PartitionType (decodeEntry bs)) /\
  GUID_wf (UniqueParitition (decodeEntry bs)) /\
  in_range 64 (Attributes (decodeEntry bs)) /\
  List.length (PartitionName (decodeEntry bs)) = 36%nat /\
  Forall (in_range 16) (PartitionName (decodeEntry bs)).
Proof.
  intros Hlen. unfold GPTPartitionEntry_wf, decodeEntry, in_range.
  cbn [PartitionType UniqueParitition StartingLBA EndingLBA Attributes
       PartitionName].
  unfold binary.Uint64.
  pose proof (le_combine_firstn_range 8 (skipn 32 bs)).
  pose proof (le_combine_firstn_range 8 (skipn 40 bs)).
  pose proof (le_combine_firstn_range 8 (skipn 48 bs)).
  split; [lia |].
  split; [apply decodeGUID_prefix_wf; lia |].
  split; [apply decodeGUID_prefix_wf; rewrite length_skipn; lia |].
  split; [lia |].
  split; [apply Uint16s_length | apply Uint16s_range].
Qed.

Lemma decodeEntry_wf_witness :
  List.length (PartitionName (decodeEntry linux_slot)) = 36%nat.
Proof.
  apply (decodeEntry_wf linux_slot). reflexivity.
Defined.

Lemma encode_decode_entry (bs : list byte) :
  List.length bs = 128%nat -> encodeEntry (decodeEntry bs) = bs.
Proof.
  intros Hlen. unfold encodeEntry, decodeEntry.
  cbn [PartitionType UniqueParitition StartingLBA EndingLBA Attributes
       PartitionName].
  rewrite !encode_decode_GUID_prefix by (try rewrite length_skipn; lia).
  unfold binary.PutUint64, binary.Uint64.
  rewrite !put_get by (rewrite length_skipn; lia).
  rewrite (put_get_Uint16s 36) by (rewrite length_skipn; lia).
  rewrite (firstn_join _ 16 16 bs). cbn [Nat.add].
  rewrite (firstn_join _ 32 8 bs). cbn [Nat.add].
  rewrite (firstn_join _ 40 8 bs). cbn [Nat.add].
  rewrite (firstn_join _ 48 8 bs). cbn [Nat.add].
  change (2 * 36)%nat with 72%nat. rewrite (firstn_join_last _ 56 72 bs).
  apply firstn_all2. lia.
Qed.

(** Decoding loses nothing of a slot's fixed fields: two blocks of 128
    bytes that decode to the same entry are the same bytes. *)
Theorem decodeEntry_injective (a b : list byte) :
  List.length a = 128%nat -> List.length b = 128%nat ->
  decodeEntry a = decodeEntry b -> a = b.
Proof.
  intros Ha Hb Heq.
  rewrite <- (encode_decode_entry a Ha), <- (encode_decode_entry b Hb), Heq.
  reflexivity.
Qed.

Lemma decodeEntry_injective_witness :
  (linux_slot ++ [])%list = linux_slot.
Proof.
  apply (decodeEntry_injective (linux_slot ++ []) linux_slot);
    reflexivity.
Defined.

(** A block of 512 bytes decodes to a header whose fields are within
    their types, with a signature of 8 bytes and 420 bytes of padding. *)
Theorem decodeHeader_wf (bs : list byte) :
  List.length bs = 512%nat -> GPTHeader_wf (decodeHeader bs).
Proof.
  intros Hlen. unfold GPTHeader_wf, decodeHeader, in_range.
  cbn [Signature Revision HeaderSize HeaderCRC32 Reserved MyLBA AltLBA
       FirstUseableLBA LastUseableLBA Disk PartitionEntryLBA
       MaxNumberPartitionEntries SizeOfPartitionEntry
       PartitionEntryArrayCRC32 Padding].
  unfold binary.Uint32, binary.Uint64.
  pose proof (le_combine_firstn_range 4 (skipn 8 bs)).
  pose proof (le_combine_firstn_range 4 (skipn 12 bs)).
  pose proof (le_combine_firstn_range 4 (skipn 16 bs)).
  pose proof (le_combine_firstn_range 4 (skipn 20 bs)).
  pose proof (le_combine_firstn_range 8 (skipn 24 bs)).
  pose proof (le_combine_firstn_range 8 (skipn 32 bs)).
  pose proof (le_combine_firstn_range 8 (skipn 40 bs)).
  pose proof (le_combine_firstn_range 8 (skipn 48 bs)).
  pose proof (le_combine_firstn_range 8 (skipn 72 bs)).
  pose proof (le_combine_firstn_range 4 (skipn 80 bs)).
  pose proof (le_combine_firstn_range 4 (skipn 84 bs)).
  pose proof (le_combine_firstn_range 4 (skipn 88 bs)).
  split; [rewrite length_firstn; lia |].
  do 8 (split; [lia |]).
  split; [apply decodeGUID_prefix_wf; rewrite length_skipn; lia |].
  do 4 (split; [lia |]).
  rewrite length_firstn, length_skipn. lia.
Qed.

Lemma decodeHeader_wf_witness :
  GPTHeader_wf (decodeHeader (encodeHeader (primary_header 4 128))).
Proof.
  apply (decodeHeader_wf (encodeHeader (primary_header 4 128))). reflexivity.
Defined.

Lemma encode_decode_header (bs : list byte) :
  List.length bs = 512%nat -> encodeHeader (decodeHeader bs) = bs.
Proof.
  intros Hlen. unfold encodeHeader, decodeHeader.
  cbn [Signature Revision HeaderSize HeaderCRC32 Reserved MyLBA AltLBA
       FirstUseableLBA LastUseableLBA Disk PartitionEntryLBA
       MaxNumberPartitionEntries SizeOfPartitionEntry
       PartitionEntryArrayCRC32 Padding].
  rewrite encode_decode_GUID_prefix by (rewrite length_skipn; lia).
  unfold binary.PutUint32, binary.PutUint64, binary.Uint32, binary.Uint64.
  rewrite !put_get by (rewrite length_skipn; lia).
  rewrite (firstn_join _ 8 4 bs). cbn [Nat.add].
  rewrite (firstn_join _ 12 4 bs). cbn [Nat.add].
  rewrite (firstn_join _ 16 4 bs). cbn [Nat.add].
  rewrite (firstn_join _ 20 4 bs). cbn [Nat.add].
  rewrite (firstn_join _ 24 8 bs). cbn [Nat.add].
  rewrite (firstn_join _ 32 8 bs). cbn [Nat.add].
  rewrite (firstn_join _ 40 8 bs). cbn [Nat.add].
  rewrite (firstn_join _ 48 8 bs). cbn [Nat.add].
  rewrite (firstn_join _ 56 16 bs). cbn [Nat.add].
  rewrite (firstn_join _ 72 8 bs). cbn [Nat.add].
  rewrite (firstn_join _ 80 4 bs). cbn [Nat.add].
  rewrite (firstn_join _ 84 4 bs). cbn [Nat.add].
  rewrite (firstn_join _ 88 4 bs). cbn [Nat.add].
  rewrite (firstn_join_last _ 92 420 bs).
  apply firstn_all2. lia.
Qed.

(** Decoding loses nothing of a header block: two blocks of 512 bytes
    that decode to the same header are the same bytes. *)
Theorem decodeHeader_injective (a b : list byte) :
  List.length a = 512%nat -> List.length b = 512%nat ->
  decodeHeader a = decodeHeader b -> a = b.
Proof.
  intros Ha Hb Heq.
  rewrite <- (encode_decode_header a Ha), <- (encode_decode_header b Hb), Heq.
  reflexivity.
Qed.

Lemma decodeHeader_injective_witness :
  (zero_block ++ [])%list = zero_block.
Proof.
  apply (decodeHeader_injective (zero_block ++ []) zero_block); reflexivity.
Defined.

(** ** From the device to the printed lines *)

Lemma byte_to_of_Z (z : Z) : byte_to_Z (byte_of_Z z) = z mod 256.
Proof.
  pose proof (Z.mod_pos_bound z 256 ltac:(lia)) as Hm.
  unfold byte_of_Z, byte_to_Z.
  destruct (Byte.of_N (Z.to_N (z mod 256))) as [b |] eqn:E.
  - apply Byte.to_of_N in E. rewrite E. lia.
  - apply Byte.of_N_None_iff in E. lia.
Qed.

Lemma le_combine_split (n : nat) :
  forall z, 0 <= z < 256 ^ Z.of_nat n ->
  binary.le_combine (binary.le_split n z) = z.
Proof.
  induction n as [|n IH]; intros z Hz.
  - cbn in *. lia.
  - cbn [binary.le_split binary.le_combine].
    rewrite Nat2Z.inj_succ, Z.pow_succ_r in Hz by lia.
    rewrite byte_to_of_Z, IH.
    + pose proof (Z.div_mod z 256 ltac:(lia)). lia.
    + split; [apply Z.div_pos; lia | apply Z.div_lt_upper_bound; lia].
Qed.

Ltac read_back n z :=
  let E := fresh "E" in
  pose proof (le_combine_split n z) as E;
  cbn [binary.le_split] in E; rewrite E by (cbn; lia); clear E.

(** A header whose fields are within their types is read back unchanged
    from its 512 bytes. *)
Lemma decode_encode_header (g : GPTHeader) :
  GPTHeader_wf g -> decodeHeader (encodeHeader g) = g.
Proof.
  destruct g as [sig rev hsz hcrc res my alt fst_ lst dsk pel mx sz pcrc pad].
  destruct dsk as [tl tm thv csr csl node].
  unfold GPTHeader_wf, GUID_wf, in_range.
  cbn [Signature Revision HeaderSize HeaderCRC32 Reserved MyLBA AltLBA
       FirstUseableLBA LastUseableLBA Disk PartitionEntryLBA
       MaxNumberPartitionEntries SizeOfPartitionEntry
       PartitionEntryArrayCRC32 Padding
       TimeLow TimeMid TimeHighAndVersion ClockSeqAndReserved ClockSeqLow Node].
  intros (Hsig & H1 & H2 & H3 & H4 & H5 & H6 & H7 & H8 &
          (G1 & G2 & G3 & G4 & G5 & Hnode) & H9 & H10 & H11 & H12 & Hpad).
  do 8 (destruct sig as [|? sig]; [discriminate Hsig |]).
  destruct sig; [| discriminate Hsig].
  do 6 (destruct node as [|? node]; [discriminate Hnode |]).
  destruct node; [| discriminate Hnode].
  unfold decodeHeader, encodeHeader, decodeGUID, encodeGUID.
  cbn [Signature Revision HeaderSize HeaderCRC32 Reserved MyLBA AltLBA
       FirstUseableLBA LastUseableLBA Disk PartitionEntryLBA
       MaxNumberPartitionEntries SizeOfPartitionEntry
       PartitionEntryArrayCRC32 Padding
       TimeLow TimeMid TimeHighAndVersion ClockSeqAndReserved ClockSeqLow Node].
  unfold binary.PutUint64, binary.PutUint32, binary.PutUint16, binary.PutUint8,
    binary.Uint64, binary.Uint32, binary.Uint16, binary.Uint8.
  set (padding_of := @firstn byte 420).
  cbn [binary.le_split app skipn firstn].
  subst padding_of.
  read_back 4%nat rev. read_back 4%nat hsz. read_back 4%nat hcrc.
  read_back 4%nat res. read_back 8%nat my. read_back 8%nat alt.
  read_back 8%nat fst_. read_back 8%nat lst.
  read_back 4%nat tl. read_back 2%nat tm. read_back 2%nat thv.
  read_back 1%nat csr. read_back 1%nat csl.
  read_back 8%nat pel. read_back 4%nat mx. read_back 4%nat sz.
  read_back 4%nat pcrc.
  rewrite firstn_all2 by lia. reflexivity.
Qed.

Lemma encodeHeader_length (g : GPTHeader) :
  GPTHeader_wf g -> List.length (encodeHeader g) = 512%nat.
Proof.
  intros (Hsig & _ & _ & _ & _ & _ & _ & _ & _ &
          (_ & _ & _ & _ & _ & Hnode) & _ & _ & _ & _ & Hpad).
  unfold encodeHeader, encodeGUID.
  repeat rewrite length_app. rewrite Hsig, Hnode, Hpad. reflexivity.
Qed.

Lemma LogicalBlock_whole (blk : list byte) :
  List.length blk = 512%nat -> LogicalBlock blk = blk.
Proof.
  intros Hlen. unfold LogicalBlock, LogicalBlockSize.
  change (Z.to_nat 512) with 512%nat.
  rewrite firstn_app, Hlen, Nat.sub_diag, firstn_all2 by lia.
  cbn [firstn]. apply app_nil_r.
Qed.

(** A full block read from a device held in memory. *)
Lemma MemDisk_read_block (pre blk post : list byte) :
  List.length blk = 512%nat ->
  MemDisk_ReadFull
    (mkMemDisk (pre ++ blk ++ post) (Z.of_nat (List.length pre))) LogicalBlockSize
  = (inl blk,
     mkMemDisk (pre ++ blk ++ post) (Z.of_nat (List.length pre) + 512)).
Proof.
  intros Hlen. unfold MemDisk_ReadFull, bytes.ReadFull, LogicalBlockSize.
  cbn [contents position].
  rewrite Nat2Z.id, skipn_app, skipn_all, Nat.sub_diag. cbn [skipn app].
  change (512 <=? 0) with false. cbv iota.
  rewrite length_app, Hlen.
  destruct (Z.eqb_spec (Z.of_nat (512 + List.length post)) 0); [lia |].
  destruct (Z.ltb_spec (Z.of_nat (512 + List.length post)) 512); [lia |].
  change (Z.to_nat 512) with 512%nat.
  rewrite firstn_app, Hlen, Nat.sub_diag, firstn_all2 by lia.
  cbn [firstn]. rewrite app_nil_r. reflexivity.
Qed.

Lemma MemDisk_supplies (blks : list (list byte)) :
  Forall (fun blk => List.length blk = 512%nat) blks ->
  forall pre post,
  supplies
    (mkMemDisk (pre ++ List.concat blks ++ post) (Z.of_nat (List.length pre)))
    (map LogicalBlock blks)
    (mkMemDisk (pre ++ List.concat blks ++ post)
       (Z.of_nat (List.length pre) + 512 * Z.of_nat (List.length blks))).
Proof.
  induction 1 as [|blk blks Hblk _ IH]; intros pre post.
  - cbn [List.length map]. rewrite Z.mul_0_r, Z.add_0_r. apply supplies_nil.
  - cbn [List.concat map List.length].
    eapply supplies_cons.
    + change (@ReadFull MemDisk MemDisk_ReadSeeker) with MemDisk_ReadFull.
      rewrite <- app_assoc. apply MemDisk_read_block. exact Hblk.
    + specialize (IH (pre ++ blk)%list post).
      rewrite length_app, Hblk in IH.
      rewrite <- !app_assoc in IH.
      replace (Z.of_nat (List.length pre) + 512)
        with (Z.of_nat (List.length pre + 512)) by lia.
      replace (Z.of_nat (List.length pre) + 512 * Z.of_nat (S (List.length blks)))
        with (Z.of_nat (List.length pre + 512)
              + 512 * Z.of_nat (List.length blks)) by lia.
      rewrite <- app_assoc. exact IH.
Qed.

Lemma slots_128_clean (n : nat) :
  forall blk, clean_slots (slots n 128 blk) = true.
Proof.
  unfold clean_slots.
  induction n as [|n IH]; intros blk; cbn [slots forallb]; [reflexivity |].
  rewrite IH, andb_true_r. unfold entry_padding.
  change (Z.to_nat 128) with 128%nat.
  rewrite skipn_all2 by (rewrite length_firstn; lia). reflexivity.
Qed.

Lemma map_LogicalBlock_whole (blks : list (list byte)) :
  Forall (fun blk => List.length blk = 512%nat) blks ->
  map LogicalBlock blks = blks.
Proof.
  induction 1 as [|blk blks Hblk _ IH]; cbn [map]; [reflexivity |].
  rewrite IH, (LogicalBlock_whole blk Hblk). reflexivity.
Qed.

Section StandardEntrySize.

Context {R : Type} {RS : ReadSeeker R}.

(** With the usual entry size of 128 bytes no slot has padding: every
    delivered block yields its four entries. *)
Lemma GetPartitions_128_run
    (fuel : nat) (g : GPTHeader) (r r1 r2 : R) (log : list IOEvent)
    (blks : list (list byte)) :
  seek_lands g r r1 ->
  SizeOfPartitionEntry g = 128 ->
  MaxNumberPartitionEntries g = 4 * Z.of_nat (List.length blks) ->
  MaxNumberPartitionEntries g < 2 ^ 32 ->
  supplies r1 blks r2 ->
  (List.length blks <= fuel)%nat ->
  GetPartitions fuel g (r, log)
  = (Done (flat_map (fun blk => map slot_entry (slots 4 128 blk)) blks),
     (r2, (log ++ EvSeek (seek_offset g) 0
               :: repeat (EvReadFull LogicalBlockSize) (List.length blks))%list)).
Proof.
  intros Hseek Hsize Hcount Hbound Hsup Hfuel.
  seek_offset_step Hseek. rewrite Hsize.
  change (128 =? 0) with false.
  change (negb (LogicalBlockSize mod 128 =? 0)) with false. cbv iota.
  change (uint32 (LogicalBlockSize / 128)) with (Z.of_nat 4).
  rewrite (blocks_loop_clean g 128 4 Hsize ltac:(lia) ltac:(lia) ltac:(lia)
             blks r1 r2 Hsup); try lia.
  - cbn [app]. rewrite <- app_assoc. reflexivity.
  - rewrite forallb_forall. intros blk _. apply slots_128_clean.
Qed.

End StandardEntrySize.

Lemma MemDisk_binary_Read_header (pre blk post : list byte) (log : list IOEvent) :
  List.length blk = 512%nat ->
  binary_Read_header
    (mkMemDisk (pre ++ blk ++ post) (Z.of_nat (List.length pre)), log)
  = (Done (decodeHeader blk),
     (mkMemDisk (pre ++ blk ++ post) (Z.of_nat (List.length pre) + 512),
      (log ++ [EvReadFull LogicalBlockSize])%list)).
Proof.
  intros Hlen. unfold binary_Read_header, bind, hdReadFull, ret.
  change (@ReadFull MemDisk MemDisk_ReadSeeker) with MemDisk_ReadFull.
  rewrite (MemDisk_read_block pre blk post Hlen).
  rewrite (LogicalBlock_whole blk Hlen). reflexivity.
Qed.

(** [show] on a device held in memory, end to end: a boot block that is
    not looked at, a well-formed header that [Verify] accepts with the
    usual entry size of 128 bytes and a count of four entries per array
    block.  The header block is read back as the header, the array is
    read block by block after one seek, and the lines printed are the
    heading and one line per used slot of the array. *)
Theorem main_show_prints_used_slots
    (fuel : nat) (boot : list byte) (g : GPTHeader)
    (blks : list (list byte)) (rest : list byte) :
  List.length boot = 512%nat ->
  GPTHeader_wf g ->
  Verify g = None ->
  SizeOfPartitionEntry g = 128 ->
  MaxNumberPartitionEntries g = 4 * Z.of_nat (List.length blks) ->
  Forall (fun blk => List.length blk = 512%nat) blks ->
  (List.length blks <= fuel)%nat ->
  let device := gpt_disk boot g (List.concat blks ++ rest) in
  let entries := flat_map (fun blk => map slot_entry (slots 4 128 blk)) blks in
  main_action fuel "show" (device, [])
  = (Done (show_heading :: show_loop 0 entries),
     (mkMemDisk (contents device) (1024 + 512 * Z.of_nat (List.length blks)),
      ([EvReadFull 512; EvReadFull 512; EvSeek 1024 0]
         ++ repeat (EvReadFull 512) (List.length blks))%list)).
Proof.
  intros Hboot Hwf Hver Hsize Hcount Hblks Hfuel device entries.
  pose proof (encodeHeader_length g Hwf) as Henc.
  destruct (Verify_accepted_fields g Hver) as (_ & _ & _ & _ & Hlba).
  assert (Hmax : MaxNumberPartitionEntries g < 2 ^ 32).
  { destruct Hwf as (_ & _ & _ & _ & _ & _ & _ & _ & _ & _ & _ & Hm & _).
    unfold in_range in Hm. lia. }
  subst device entries. unfold gpt_disk, main_action. unfold bind at 1.
  pose proof (MemDisk_binary_Read_header [] boot
                (encodeHeader g ++ List.concat blks ++ rest) [] Hboot) as H1.
  cbn [app List.length Z.of_nat Z.add] in H1. rewrite H1. clear H1.
  unfold bind at 1.
  pose proof (MemDisk_binary_Read_header boot (encodeHeader g)
                (List.concat blks ++ rest) [EvReadFull LogicalBlockSize] Henc) as H2.
  rewrite Hboot in H2. change (Z.of_nat 512) with 512 in H2.
  rewrite H2. clear H2.
  rewrite (decode_encode_header g Hwf).
  change (String.eqb "show" "verify") with false.
  change (String.eqb "show" "show") with true. cbv iota.
  rewrite Hver. unfold bind, ret.
  pose proof (MemDisk_supplies blks Hblks (boot ++ encodeHeader g) rest) as Hsup.
  rewrite length_app, Hboot, Henc in Hsup.
  change (Z.of_nat (512 + 512)) with 1024 in Hsup.
  rewrite <- !app_assoc in Hsup.
  rewrite (map_LogicalBlock_whole blks Hblks) in Hsup.
  rewrite (GetPartitions_128_run fuel g _ _ _ _ blks) with (2 := Hsize)
    (3 := Hcount) (4 := Hmax) (5 := Hsup) (6 := Hfuel).
  - cbn [contents]. unfold seek_offset. rewrite Hlba. reflexivity.
  - exists 1024. unfold seek_offset. rewrite Hlba. split; reflexivity.
Qed.

Lemma main_show_prints_used_slots_witness :
  main_action 8 "show"
    (gpt_disk zero_block (primary_header 4 128)
       (List.concat [sample_array] ++ []), [])
  = (Done (show_heading
           :: show_loop 0
                (flat_map (fun blk => map slot_entry (slots 4 128 blk))
                   [sample_array])),
     (mkMemDisk
        (contents (gpt_disk zero_block (primary_header 4 128)
                     (List.concat [sample_array] ++ [])))
        (1024 + 512 * Z.of_nat (List.length [sample_array])),
      ([EvReadFull 512; EvReadFull 512; EvSeek 1024 0]
         ++ repeat (EvReadFull 512) (List.length [sample_array]))%list)).
Proof.
  apply (main_show_prints_used_slots 8 zero_block (primary_header 4 128)
           [sample_array] []).
  - reflexivity.
  - unfold GPTHeader_wf, GUID_wf, in_range. cbn. repeat split; lia.
  - reflexivity.
  - reflexivity.
  - reflexivity.
  - repeat constructor.
  - simpl. lia.
Defined.

(** A device whose second block does not start with the signature ends
    both actions with the signature error, after the two header reads
    and before any seek: [show] does not touch the entry array. *)
Theorem main_rejects_bad_signature
    (fuel : nat) (cmd : string) (boot hdr rest : list byte) :
  List.length boot = 512%nat -> List.length hdr = 512%nat ->
  firstn 8 hdr <> EFI_PART ->
  cmd = "verify"%string \/ cmd = "show"%string ->
  main_action fuel cmd (mkMemDisk (boot ++ hdr ++ rest) 0, [])
  = (Failed (BadSignature (firstn 8 hdr)),
     (mkMemDisk (boot ++ hdr ++ rest) 1024,
      [EvReadFull 512; EvReadFull 512])).
Proof.
  intros Hboot Hhdr Hsig Hcmd.
  unfold main_action. unfold bind at 1.
  pose proof (MemDisk_binary_Read_header [] boot (hdr ++ rest) [] Hboot) as H1.
  cbn [app List.length Z.of_nat Z.add] in H1. rewrite H1. clear H1.
  unfold bind at 1.
  pose proof (MemDisk_binary_Read_header boot hdr rest
                [EvReadFull LogicalBlockSize] Hhdr) as H2.
  rewrite Hboot in H2. change (Z.of_nat 512) with 512 in H2.
  rewrite H2. clear H2.
  assert (Hver : Verify (decodeHeader hdr) = Some (BadSignature (firstn 8 hdr))).
  { unfold Verify. cbn [Signature decodeHeader].
    destruct (bytes_eqb (firstn 8 hdr) EFI_PART) eqn:E; [| reflexivity].
    apply bytes_eqb_eq in E. contradiction. }
  rewrite Hver.
  destruct Hcmd as [-> | ->]; reflexivity.
Qed.

Lemma main_rejects_bad_signature_witness :
  main_action 8 "show" (mkMemDisk (zero_block ++ zero_block ++ zero_block) 0, [])
  = (Failed (BadSignature (firstn 8 zero_block)),
     (mkMemDisk (zero_block ++ zero_block ++ zero_block) 1024,
      [EvReadFull 512; EvReadFull 512])).
Proof.
  apply (main_rejects_bad_signature 8 "show" zero_block zero_block zero_block).
  - reflexivity.
  - reflexivity.
  - discriminate.
  - right. reflexivity.
Defined.
